(** * Aleph: the sparse column store [aleph::representations::Vector]

    A shallow embedding of [src/Vector.hh], the column-major sparse
    boundary-matrix representation over Z/2Z, together with the
    properties of its public operations.

    The class is a template over an unsigned index type; the embedding
    is parametrised by the bit width [w] of that type.  Indices are
    natural numbers ([N]); the places where the width matters are the
    two [static_cast<Index>] conversions of the source and the
    conversion of the elements that [setColumn] copies from its input
    range. *)

From stdpp Require Import base numbers list sorting.
From Stdlib Require Import NArith ZArith Lia.
From stdpp Require Import strings pretty.

Local Open Scope N_scope.

(** ** Data model *)

(** [using Index = IndexType]: an unsigned machine integer. *)
Definition Index : Type := N.

(** [static_cast<Index>(z)] for an unsigned [Index] of [w] bits: the
    value of [z] modulo [2^w]. *)
Definition static_cast (w : N) (z : Z) : Index :=
  Z.to_N (z mod 2 ^ Z.of_N w)%Z.

(** A value that the type [Index] can hold. *)
Definition is_Index (w : N) (x : N) : Prop := x < 2 ^ w.

(** The conversion of an unsigned value of any width to [Index], as
    [std::vector<Index>::assign] applies it to every element of the
    range it copies. *)
Definition to_Index (w : N) (x : N) : Index := static_cast w (Z.of_N x).

(** The private members of the class. *)
Record Vector : Type := mkVector {
  _data : list (list Index);
  _dimensions : list Index;
  _isDualized : bool
}.

(** The implicitly defined default constructor: both vectors empty,
    [_isDualized = false] by its default member initialiser. *)
Definition Vector_default : Vector :=
  {| _data := []; _dimensions := []; _isDualized := false |}.

(** ** Member functions as computations on the object

    A member function either returns normally or leaves through the
    [std::out_of_range] exception of [std::vector::at]; in both cases the
    object is left in some state.  [M A] is the corresponding state and
    exception monad. *)

Inductive outcome (A : Type) : Type :=
| Return (a : A)
| out_of_range.
Arguments Return {A} a.
Arguments out_of_range {A}.

Definition M (A : Type) : Type := Vector → outcome A * Vector.

Definition ret {A} (a : A) : M A := λ s, (Return a, s).

Definition throw {A} : M A := λ s, (out_of_range, s).

Definition bind {A B} (m : M A) (k : A → M B) : M B := λ s,
  match m s with
  | (Return a, s') => k a s'
  | (out_of_range, s') => (out_of_range, s')
  end.

Notation "'do' x <- m ; k" := (bind m (λ x, k))
  (at level 10, x name, m at level 100, k at level 200,
   format "'[v' 'do'  x  <-  m ; '/' k ']'").

(** State after, and outcome of, running a member function. *)
Definition exec {A} (m : M A) (s : Vector) : Vector := (m s).2.
Definition result {A} (m : M A) (s : Vector) : outcome A := (m s).1.

(** [_data.at(column)] read as a value. *)
Definition data_at (column : Index) : M (list Index) := λ s,
  match _data s !! N.to_nat column with
  | Some c => ret c s
  | None => throw s
  end.

(** A store through the reference that [_data.at(column)] returned. *)
Definition data_store (column : Index) (c : list Index) : M unit := λ s,
  (Return (),
   {| _data := <[N.to_nat column := c]> (_data s);
      _dimensions := _dimensions s;
      _isDualized := _isDualized s |}).

(** [_dimensions.at(column)] read as a value. *)
Definition dimensions_at (column : Index) : M Index := λ s,
  match _dimensions s !! N.to_nat column with
  | Some d => ret d s
  | None => throw s
  end.

(** A store through the reference that [_dimensions.at(column)] returned. *)
Definition dimensions_store (column : Index) (d : Index) : M unit := λ s,
  (Return (),
   {| _data := _data s;
      _dimensions := <[N.to_nat column := d]> (_dimensions s);
      _isDualized := _isDualized s |}).

(** ** The standard algorithms the class calls *)

(** [std::sort] on a range of unsigned integers.  The standard fixes the
    result (the non-descending rearrangement of the range), not the
    algorithm; insertion into a sorted list computes it, and
    [sort_unique] below shows that no other result is possible. *)
Fixpoint sort_insert (x : Index) (l : list Index) : list Index :=
  match l with
  | [] => [x]
  | y :: l' => if x <=? y then x :: y :: l' else y :: sort_insert x l'
  end.

Fixpoint sort (l : list Index) : list Index :=
  match l with
  | [] => []
  | x :: l' => sort_insert x (sort l')
  end.

(** [std::set_symmetric_difference] with an appending output iterator:
    the merge loop of the standard library.  While both ranges are
    non-empty the smaller head is copied, equal heads are both skipped;
    the remainder of the other range is copied when one runs out. *)
Fixpoint set_symmetric_difference (l1 : list Index)
  : list Index → list Index :=
  match l1 with
  | [] => λ l2, l2
  | x :: t1 =>
      fix inner (l2 : list Index) : list Index :=
        match l2 with
        | [] => x :: t1
        | y :: t2 =>
            if x <? y then x :: set_symmetric_difference t1 (y :: t2)
            else if y <? x then y :: inner t2
            else set_symmetric_difference t1 t2
        end
  end.

(** [*std::max_element(first, last)] on a non-empty range whose first
    element is [x]: the running largest element is replaced whenever it
    is smaller than the element under the iterator. *)
Fixpoint max_element (x : Index) (l : list Index) : Index :=
  match l with
  | [] => x
  | y :: l' => max_element (if x <? y then y else x) l'
  end.

(** [c.back()] of a non-empty vector.  The default is returned for the
    empty vector only, which the source never asks for. *)
Definition back (c : list Index) : Index := List.last c 0.

(** ** The class template *)

Section Vector.
(** Bit width of [IndexType]. *)
Variable w : N.

Definition setNumColumns (numColumns : Index) : M unit := λ s,
  (Return (),
   {| _data := resize (N.to_nat numColumns) [] (_data s);
      _dimensions := resize (N.to_nat numColumns) 0 (_dimensions s);
      _isDualized := _isDualized s |}).

Definition getNumColumns : M Index := λ s,
  (Return (static_cast w (Z.of_nat (length (_data s)))), s).

Definition getMaximumIndex (column : Index) : M (Index * bool) :=
  do c <- data_at column;
  if bool_decide (c = []) then ret (0, false)
  else do c' <- data_at column;
       ret (back c', true).

Definition addColumns (source target : Index) : M unit :=
  do sourceColumn <- data_at source;
  do targetColumn <- data_at target;
  let result := set_symmetric_difference sourceColumn targetColumn in
  data_store target result.

(** The iterator range [begin, end) is given as the list of the
    unsigned values it denotes; [assign] converts each of them to
    [Index]. *)
Definition setColumn (column : Index) (input : list Index) : M unit :=
  do _ <- data_at column;
  do _ <- data_store column (to_Index w <$> input);
  do c <- data_at column;
  do _ <- data_at column;
  do _ <- data_store column (sort c);
  do _ <- dimensions_at column;
  dimensions_store column
    (match input with
     | [] => 0
     | _ :: _ => static_cast w (Z.of_nat (length input) - 1)
     end).

Definition getColumn (column : Index) : M (list Index) :=
  data_at column.

Definition clearColumn (column : Index) : M unit :=
  do _ <- data_at column;
  data_store column [].

Definition getDimension (column : Index) : M Index :=
  dimensions_at column.

(** The overload [getDimension()] without argument. *)
Definition getDimension_all : M Index := λ s,
  match _dimensions s with
  | [] => (Return 0, s)
  | d :: ds => (Return (max_element d ds), s)
  end.

Definition setDualized (value : bool) : M unit := λ s,
  (Return (),
   {| _data := _data s;
      _dimensions := _dimensions s;
      _isDualized := value |}).

Definition isDualized : M bool := λ s, (Return (_isDualized s), s).
End Vector.

(** ** Vocabulary of the properties *)

(** A column index that [_data.at] accepts. *)
Definition in_range (column : Index) (s : Vector) : Prop :=
  (N.to_nat column < length (_data s))%nat.

#[global] Instance in_range_dec column s : Decision (in_range column s).
Proof. unfold in_range. apply _. Defined.

(** Sorted in ascending order, repetitions allowed. *)
Definition ascending (c : list Index) : Prop := Sorted N.le c.

(** Sorted in ascending order and free of duplicates. *)
Definition strictly_ascending (c : list Index) : Prop := Sorted N.lt c.

(** [p] is the largest row index stored in [c]. *)
Definition is_maximum (p : Index) (c : list Index) : Prop :=
  p ∈ c ∧ ∀ x, x ∈ c → x ≤ p.

(** The column stored at [column], if there is one. *)
Definition column_of (s : Vector) (column : Index) : option (list Index) :=
  _data s !! N.to_nat column.

(** The dimension tag stored at [column], if there is one. *)
Definition dimension_of (s : Vector) (column : Index) : option Index :=
  _dimensions s !! N.to_nat column.

(** The class invariant: both member vectors have the same size, and
    that size is a value of [Index] (it was last set from one). *)
Definition wf (w : N) (s : Vector) : Prop :=
  length (_dimensions s) = length (_data s) ∧
  is_Index w (N.of_nat (length (_data s))).

(** The calls through which a client can change an object. *)
Inductive call : Type :=
| call_setNumColumns (numColumns : Index)
| call_addColumns (source target : Index)
| call_setColumn (column : Index) (input : list Index)
| call_clearColumn (column : Index)
| call_setDualized (value : bool).

(** The state a call leaves behind, also when it throws. *)
Definition run (w : N) (c : call) (s : Vector) : Vector :=
  match c with
  | call_setNumColumns n => exec (setNumColumns n) s
  | call_addColumns source target => exec (addColumns source target) s
  | call_setColumn column input => exec (setColumn w column input) s
  | call_clearColumn column => exec (clearColumn column) s
  | call_setDualized value => exec (setDualized value) s
  end.

(** Arguments of type [Index] are values of that type. *)
Definition call_typed (w : N) (c : call) : Prop :=
  match c with
  | call_setNumColumns n => is_Index w n
  | call_addColumns source target => is_Index w source ∧ is_Index w target
  | call_setColumn column input =>
      is_Index w column ∧ Forall (is_Index w) input
  | call_clearColumn column => is_Index w column
  | call_setDualized _ => True
  end.

(** The objects a program can hold: default-constructed, then changed
    through the public interface only. *)
Inductive reachable (w : N) : Vector → Prop :=
| reachable_default : reachable w Vector_default
| reachable_call c s :
    call_typed w c → reachable w s → reachable w (run w c s).

(** ** The column reduction engine *)

(** The reduction engine and the pairing extractor (section 4.2 of the
    specification) are not part of the sources at hand; only the store
    they drive is.  They are modelled from the specification's text, on
    top of the store's own [getMaximumIndex], [addColumns],
    [getNumColumns], [getDimension] and [isDualized]. *)

(** Modelled from the spec: the pivot of a column, which is missing
    from the sources together with the engine.  Column [k] is non-empty
    and its pivot, the answer of [getMaximumIndex], is [p]. *)
Definition has_pivot (k p : Index) (s : Vector) : Prop :=
  result (getMaximumIndex k) s = Return (p, true).

(** Modelled from the spec: the inner loop of the reduction engine,
    steps (a) to (d) for one column [j].  Step (b), the search for an
    earlier column with the same pivot, is left open: any strictly
    earlier non-empty column with that pivot may be taken, so that every
    search strategy and every tie-break is a run of the relation. *)
Inductive reduce_column (j : Index) : Vector → Vector → Prop :=
| reduce_column_zero s p :
    result (getMaximumIndex j) s = Return (p, false) →
    reduce_column j s s
| reduce_column_done s p :
    has_pivot j p s →
    (∀ k, k < j → ¬ has_pivot k p s) →
    reduce_column j s s
| reduce_column_add s p k s' :
    has_pivot j p s →
    k < j → has_pivot k p s →
    reduce_column j (exec (addColumns k j) s) s' →
    reduce_column j s s'.

(** Modelled from the spec: the outer loop of the reduction engine,
    step 1 over the columns [j], [j+1], ..., [n-1] in increasing
    order. *)
Inductive sweep (n : Index) : Index → Vector → Vector → Prop :=
| sweep_end j s : n ≤ j → sweep n j s s
| sweep_next j s s' s'' :
    j < n → reduce_column j s s' → sweep n (j + 1) s' s'' →
    sweep n j s s''.

(** Modelled from the spec: the reduction engine as a whole, a complete
    left-to-right sweep over the matrix held in [s]. *)
Definition reduces (w : N) (s s' : Vector) : Prop :=
  ∃ n, result (getNumColumns w) s = Return n ∧ sweep n 0 s s'.

(** Modelled from the spec: the reduced state, restricted to the columns
    before [j]: no two of them hold the same pivot. *)
Definition prefix_reduced (j : Index) (s : Vector) : Prop :=
  ∀ k1 k2 p, k1 < j → k2 < j →
    has_pivot k1 p s → has_pivot k2 p s → k1 = k2.

(** The column indices before [j], in increasing order. *)
Definition earlier (j : Index) : list Index :=
  N.of_nat <$> seq 0 (N.to_nat j).

(** Every stored column is sorted ascending and free of duplicates. *)
Definition columns_strict (s : Vector) : Prop :=
  ∀ c col, column_of s c = Some col → strictly_ascending col.

(** A bound on the pivot of column [j] that every elimination lowers. *)
Definition height (j : Index) (s : Vector) : N :=
  match column_of s j with
  | Some c => if bool_decide (c = []) then 0 else back c + 1
  | None => 0
  end.

(** Modelled from the spec: the persistence pair that the pairing
    extractor emits. *)
Record Pair : Type := mkPair {
  birth : Index;
  death : Index;
  dimension : Index
}.

(** Modelled from the spec: step 2 of the pairing extractor for one
    column.  A non-empty column [j] with pivot [p] yields the pair
    (birth [p], death [j]) tagged with the dimension of [p]; birth and
    death are swapped when the matrix is dualized. *)
Definition pair_of_column (j : Index) : M (option Pair) :=
  do m <- getMaximumIndex j;
  if m.2 then
    do d <- getDimension m.1;
    do dual <- isDualized;
    ret (Some (if dual
               then {| birth := j; death := m.1; dimension := d |}
               else {| birth := m.1; death := j; dimension := d |}))
  else ret None.

(** Modelled from the spec: step 2 over a list of columns. *)
Fixpoint pairs_of_columns (js : list Index) : M (list Pair) :=
  match js with
  | [] => ret []
  | j :: js' =>
      do o <- pair_of_column j;
      do ps <- pairs_of_columns js';
      ret (match o with Some p => p :: ps | None => ps end)
  end.

(** Modelled from the spec: the pairing extractor, the pairs of all
    columns in column order. *)
Definition pairing (w : N) : M (list Pair) :=
  do n <- getNumColumns w;
  pairs_of_columns (earlier n).

(** Modelled from the spec: the search of step (b) made executable, for
    exhibiting runs of the engine.  The candidates [ks] are scanned in
    the order given; the first one with the pivot [p] is taken. *)
Fixpoint find_pivot (ks : list Index) (p : Index) (s : Vector)
  : option Index :=
  match ks with
  | [] => None
  | k :: ks' =>
      match result (getMaximumIndex k) s with
      | Return (q, true) => if q =? p then Some k else find_pivot ks' p s
      | _ => find_pivot ks' p s
      end
  end.

(** Modelled from the spec: the inner loop with that search, over the
    columns before [j] in the order that [order] puts them in, bounded
    by [fuel]. *)
Fixpoint reduce_column_search (order : list Index → list Index)
    (fuel : nat) (j : Index) (s : Vector) : option Vector :=
  match fuel with
  | O => None
  | S fuel' =>
      match result (getMaximumIndex j) s with
      | Return (p, true) =>
          match find_pivot (order (earlier j)) p s with
          | Some k =>
              reduce_column_search order fuel' j (exec (addColumns k j) s)
          | None => Some s
          end
      | Return (_, false) => Some s
      | out_of_range => None
      end
  end.

(** Modelled from the spec: the outer loop with that search. *)
Fixpoint sweep_search (order : list Index → list Index) (fuel : nat)
    (js : list Index) (s : Vector) : option Vector :=
  match js with
  | [] => Some s
  | j :: js' =>
      match reduce_column_search order fuel j s with
      | Some s' => sweep_search order fuel js' s'
      | None => None
      end
  end.

(** Modelled from the spec: the engine with that search. *)
Definition reduce_search (w : N) (order : list Index → list Index)
    (fuel : nat) (s : Vector) : option Vector :=
  match result (getNumColumns w) s with
  | Return n => sweep_search order fuel (earlier n) s
  | out_of_range => None
  end.

(** The dimension that [setColumn] derives from its input. *)
Definition derived_dimension (w : N) (input : list Index) : Index :=
  match input with
  | [] => 0
  | _ :: _ => static_cast w (Z.of_nat (length input) - 1)
  end.

(** ** Example objects *)

(** Three columns over 32-bit indices: two vertices and the edge that
    joins them. *)
Definition edge_store : Vector :=
  exec (setColumn 32 2 [0; 1])
    (exec (setNumColumns 3) Vector_default).

(** Two columns, the first assigned from an input that repeats an
    index. *)
Definition duplicate_store : Vector :=
  exec (setColumn 32 0 [1; 1])
    (exec (setNumColumns 2) Vector_default).

(** The filtration of a triangle: the vertices 0, 1, 2, the edges 3, 4,
    5 and the face 6. *)
Definition triangle_store : Vector :=
  exec (setColumn 32 6 [3; 4; 5])
    (exec (setColumn 32 5 [1; 2])
       (exec (setColumn 32 4 [0; 2])
          (exec (setColumn 32 3 [0; 1])
             (exec (setNumColumns 7) Vector_default)))).

(** The triangle after reduction: edge 5 has become the zero column. *)
Definition triangle_reduced : Vector :=
  {| _data := [[]; []; []; [0; 1]; [0; 2]; []; [3; 4; 5]];
     _dimensions := [0; 0; 0; 1; 1; 1; 2];
     _isDualized := false |}.

(** One empty column. *)
Definition single_store : Vector :=
  exec (setNumColumns 1) Vector_default.

(** * [aleph::geometry::Point]

    A shallow embedding of [src/include/aleph/geometry/Point.hh]: a
    point is the vector of its coordinates. *)

(** What the class template asks of its coordinate type [T]: the
    operators [==] and [<] that the standard algorithms apply to
    coordinates, and the characters that stand for a coordinate in
    plain output. *)
Class Coordinate (T : Type) : Type := {
  coordinate_eq : T → T → bool;
  coordinate_lt : T → T → bool;
  coordinate_write : T → string
}.

(** The coordinate type [int]. *)
#[global] Instance int_Coordinate : Coordinate Z := {
  coordinate_eq := Z.eqb;
  coordinate_lt := Z.ltb;
  coordinate_write := pretty
}.

(** A [std::ostream] as [operator<<] of [Point] uses it: a state [O]
    with the insertion of a character string ([o << " "]) and of a
    coordinate ([o << *it]).  Both are formatted output functions: what
    they append depends on the state of the stream (field width, fill
    character, flags, error state), and they change that state. *)
Class Ostream (T O : Type) : Type := {
  shl_string : string → O → O;
  shl_coordinate : T → O → O
}.

(** A stream in good state with the default flags and fill character:
    the characters written so far and the field width [width()]. *)
Record text_ostream : Type := mk_text_ostream {
  written : string;
  width : N
}.

Fixpoint blanks (n : nat) : string :=
  match n with
  | O => ""
  | S n' => " " +:+ blanks n'
  end.

(** [std::setw(n)]. *)
Definition setw (n : N) (o : text_ostream) : text_ostream :=
  {| written := written o; width := n |}.

(** A formatted insertion of the characters [s]: they are padded on the
    left with blanks up to the field width, and the width is reset. *)
Definition formatted (s : string) (o : text_ostream) : text_ostream :=
  {| written :=
       written o +:+ blanks (N.to_nat (width o) - String.length s) +:+ s;
     width := 0 |}.

#[global] Instance text_Ostream {T : Type} `{!Coordinate T} :
    Ostream T text_ostream := {
  shl_string := formatted;
  shl_coordinate x := formatted (coordinate_write x)
}.

(** The states of a stream in which insertion is plain appending: a
    set [plain] of states, closed under both insertions, in which a
    string is appended as it is and a coordinate as
    [coordinate_write] gives it; [text] reads the characters written so
    far. *)
Definition appends {T O : Type} `{!Coordinate T} `{!Ostream T O}
    (text : O → string) (plain : O → Prop) : Prop :=
  (∀ s o, plain o →
     plain (shl_string s o) ∧ text (shl_string s o) = text o +:+ s) ∧
  (∀ x o, plain o →
     plain (shl_coordinate x o) ∧
     text (shl_coordinate x o) = text o +:+ coordinate_write x).

(** [==] on coordinates decides equality. *)
Definition coordinate_eq_correct (T : Type) `{!Coordinate T} : Prop :=
  ∀ x y : T, coordinate_eq x y = true ↔ x = y.

(** [<] on coordinates is a strict total order. *)
Definition coordinate_lt_strict_total (T : Type) `{!Coordinate T} : Prop :=
  (∀ x : T, coordinate_lt x x = false) ∧
  (∀ x y z : T, coordinate_lt x y = true → coordinate_lt y z = true →
                coordinate_lt x z = true) ∧
  (∀ x y : T, coordinate_lt x y = false → coordinate_lt y x = false → x = y).

Module Point.
Section Point.
Context {T : Type} `{!Coordinate T}.

Record Point : Type := mkPoint {
  _data : list T
}.

(** [Point(begin, end)] and [Point(std::initializer_list<T>)]: the
    coordinates are the elements of the range. *)
Definition Point_of_range (range : list T) : Point :=
  {| _data := range |}.

Definition dimension (p : Point) : N := N.of_nat (length (_data p)).

Definition size (p : Point) : N := N.of_nat (length (_data p)).

(** The loop of [std::equal(first1, last1, first2)]: walks the first
    range and reads the second one alongside, without a bound on the
    second; it stops at the first pair of elements that differ.  The
    case of an exhausted second range is outside the precondition below
    and never reached under it. *)
Fixpoint equal_loop (l1 l2 : list T) : bool :=
  match l1, l2 with
  | [], _ => true
  | x :: t1, y :: t2 => if coordinate_eq x y then equal_loop t1 t2 else false
  | _ :: _, [] => false
  end.

(** [std::equal(first1, last1, first2)] requires the range that starts
    at [first2] to hold at least as many elements as the first range.  A
    call with a shorter second range has undefined behaviour, whatever
    the elements are; it is rendered as [None]. *)
Definition equal (l1 l2 : list T) : option bool :=
  if bool_decide (length l1 ≤ length l2)%nat
  then Some (equal_loop l1 l2)
  else None.

(** [std::lexicographical_compare(first1, last1, first2, last2)]. *)
Fixpoint lexicographical_compare (l1 l2 : list T) : bool :=
  match l1, l2 with
  | x :: t1, y :: t2 =>
      if coordinate_lt x y then true
      else if coordinate_lt y x then false
      else lexicographical_compare t1 t2
  | [], _ :: _ => true
  | _, [] => false
  end.

Definition operator_eq (p other : Point) : option bool :=
  equal (_data p) (_data other).

Definition operator_ne (p other : Point) : option bool :=
  negb <$> operator_eq p other.

Definition operator_lt (p other : Point) : bool :=
  lexicographical_compare (_data p) (_data other).

Context {O : Type} `{!Ostream T O}.

(** The loop of [operator<<] from the iterator [it] on; [first] tells
    whether [it] is still [p.begin()].  The state of the stream is
    threaded through the insertions. *)
Fixpoint write_from (first : bool) (l : list T) (o : O) : O :=
  match l with
  | [] => o
  | x :: l' =>
      let o := if first then o else shl_string " " o in
      write_from false l' (shl_coordinate x o)
  end.

(** [operator<<(std::ostream&, const Point<T>&)]. *)
Definition operator_shl (o : O) (p : Point) : O :=
  write_from true (_data p) o.
End Point.
Arguments Point T : clear implicits.
End Point.

(** * [aleph::PointCloud]

    A shallow embedding of the storage of [src/containers/PointCloud.hh]:
    the array behind [_points] is the list of its elements, empty for
    the null pointer. *)

Module PointCloud.

(** How [get] can end: normally, with a [std::runtime_error], or with a
    read outside the array (undefined behaviour). *)
Inductive outcome (A : Type) : Type :=
| Return (a : A)
| runtime_error (what_arg : string)
| undefined.
Arguments Return {A} a.
Arguments runtime_error {A} what_arg.
Arguments undefined {A}.

(** Multiplication of two [std::size_t] values (64 bits). *)
Definition size_t_mul (a b : N) : N := (a * b) mod 2 ^ 64.

Section PointCloud.
Context {T : Type}.
(** The value-initialised element [T()]. *)
Variable T_zero : T.

Record PointCloud : Type := mkPointCloud {
  _n : N;
  _d : N;
  _points : list T
}.

(** [PointCloud()]. *)
Definition PointCloud_default : PointCloud :=
  {| _n := 0; _d := 0; _points := [] |}.

(** [PointCloud(n, d)]: an array of [n * d] elements, all [T()]. *)
Definition PointCloud_of_size (n d : N) : PointCloud :=
  {| _n := n; _d := d;
     _points := replicate (N.to_nat (size_t_mul n d)) T_zero |}.

Definition size (pc : PointCloud) : N := _n pc.

Definition dimension (pc : PointCloud) : N := _d pc.

(** [get(i, result)]; the value is what is written through [result]. *)
Definition get (i : N) (pc : PointCloud) : outcome (list T) :=
  if bool_decide (size pc ≤ i) then runtime_error "Invalid index"
  else
    let offset := size_t_mul i (dimension pc) in
    if bool_decide (offset + dimension pc ≤ N.of_nat (length (_points pc)))
    then Return (take (N.to_nat (dimension pc))
                   (drop (N.to_nat offset) (_points pc)))
    else undefined.

(** The array holds exactly [size() * dimension()] elements. *)
Definition allocated (pc : PointCloud) : Prop :=
  N.of_nat (length (_points pc)) = _n pc * _d pc.
End PointCloud.
End PointCloud.

(** * [makeRandomStratifiedGraph]

    A shallow embedding of the graph generator of
    [src/src/tools/stratified_graph_analysis.cc].  The simplex and
    simplicial complex classes and the random number generator are not
    part of the sources at hand; the generator takes their constructors
    and the draw of a weight as parameters. *)

Module StratifiedGraph.

(** How the generator can end. *)
Inductive outcome (A : Type) : Type :=
| Return (a : A)
| runtime_error (what_arg : string).
Arguments Return {A} a.
Arguments runtime_error {A} what_arg.

(** Conversion to [VertexType], which is [unsigned short] (16 bits). *)
Definition VertexType_of (z : Z) : N := static_cast 16 z.

(** Conversion to [unsigned] (32 bits), the type in which a sum or a
    difference of a [VertexType] and an [unsigned] is computed. *)
Definition unsigned_of (z : Z) : N := static_cast 32 z.

(** [for( unsigned j = 0; j < bound; j++ ) body]: [count] iterations
    are left and the counter is [j]. *)
Fixpoint for_loop {St : Type} (count : nat) (j : N) (body : N → St → St)
    (st : St) : St :=
  match count with
  | O => st
  | S count' =>
      for_loop count' (unsigned_of (Z.of_N j + 1)) body (body j st)
  end.

Definition for_unsigned {St : Type} (bound : N) (body : N → St → St)
    (st : St) : St :=
  for_loop (N.to_nat bound) 0 body st.

Section makeRandomStratifiedGraph.
Variables DataType Simplex SimplicialComplex Engine : Type.
(** [Simplex( VertexType )]. *)
Variable Simplex_of_vertex : N → Simplex.
(** [Simplex( { u, v }, data )]. *)
Variable Simplex_of_vertices : list N → DataType → Simplex.
(** [SimplicialComplex( begin, end )]. *)
Variable SimplicialComplex_of_range : list Simplex → SimplicialComplex.
(** [distribution( engine )]: the weight drawn and the generator
    afterwards. *)
Variable draw : Engine → DataType * Engine.

(** The first loop nest: one vertex per unit of every stratum; the state
    is [index] and the vector [simplices]. *)
Definition push_vertices (strata : list N) (st : N * list Simplex)
  : N * list Simplex :=
  foldl
    (λ st stratum,
       for_unsigned stratum
         (λ _ '(index, simplices),
            (VertexType_of (Z.of_N index + 1),
             simplices ++ [Simplex_of_vertex index]))
         st)
    st strata.

(** The body of the innermost loop: the edge between vertex [j] of
    stratum [i] and vertex [k] of the next stratum, with a fresh
    weight. *)
Definition push_edge (offset s_i j k : N) (st : Engine * list Simplex)
  : Engine * list Simplex :=
  let '(engine, simplices) := st in
  let '(weight, engine) := draw engine in
  (engine,
   simplices ++
   [Simplex_of_vertices
      [VertexType_of
         (Z.of_N (unsigned_of
                    (Z.of_N (unsigned_of (Z.of_N offset - Z.of_N s_i))
                     + Z.of_N j)));
       VertexType_of (Z.of_N (unsigned_of (Z.of_N offset + Z.of_N k)))]
      weight]).

(** The second loop nest, over [i = 0, ..., n - 2]; [strata] is the part
    of the vector from index [i] on. *)
Fixpoint push_edges (strata : list N) (offset : N)
    (st : Engine * list Simplex) : Engine * list Simplex :=
  match strata with
  | s_i :: ((s_next :: _) as rest) =>
      let offset :=
        VertexType_of (Z.of_N (unsigned_of (Z.of_N offset + Z.of_N s_i))) in
      let st :=
        for_unsigned s_i
          (λ j st, for_unsigned s_next (λ k st, push_edge offset s_i j k st) st)
          st in
      push_edges rest offset st
  | _ => st
  end.

Definition makeRandomStratifiedGraph (strata : list N) (engine : Engine)
  : outcome SimplicialComplex * Engine :=
  if bool_decide (length strata ≤ 1)%nat
  then (runtime_error "Invalid number of strata", engine)
  else
    let '(_, simplices) := push_vertices strata (0, []) in
    let '(engine, simplices) := push_edges strata 0 (engine, simplices) in
    (Return (SimplicialComplex_of_range simplices), engine).

(** [count] successive draws. *)
Fixpoint draws (count : nat) (engine : Engine) : list DataType * Engine :=
  match count with
  | O => ([], engine)
  | S count' =>
      let '(weight, engine) := draw engine in
      let '(weights, engine) := draws count' engine in
      (weight :: weights, engine)
  end.

(** The edges for a list of vertex pairs and a list of weights. *)
Definition edge_simplices (pairs : list (N * N)) (weights : list DataType)
  : list Simplex :=
  zip_with (λ '(u, v) weight, Simplex_of_vertices [u; v] weight)
    pairs weights.

(** Appending the edges for [pairs], each with a fresh weight. *)
Definition emit (pairs : list (N * N)) (st : Engine * list Simplex)
  : Engine * list Simplex :=
  let '(engine, simplices) := st in
  let '(weights, engine) := draws (length pairs) engine in
  (engine, simplices ++ edge_simplices pairs weights).
End makeRandomStratifiedGraph.

(** The values [first, first + 1, ...] that a counter takes in [count]
    iterations. *)
Definition counters_from (first : N) (count : nat) : list N :=
  N.of_nat <$> seq (N.to_nat first) count.

(** The values [0, ..., bound - 1]. *)
Definition counters (bound : N) : list N :=
  counters_from 0 (N.to_nat bound).

(** The complete bipartite graph between the [s_i] vertices from
    [first] on and the [s_next] vertices after them. *)
Definition bipartite (first s_i s_next : N) : list (N * N) :=
  j ← counters s_i;
  (λ k, (first + j, first + s_i + k)) <$> counters s_next.

(** The edges between consecutive strata, the first stratum starting at
    the vertex [first]. *)
Fixpoint consecutive (strata : list N) (first : N) : list (N * N) :=
  match strata with
  | s_i :: ((s_next :: _) as rest) =>
      bipartite first s_i s_next ++ consecutive rest (first + s_i)
  | _ => []
  end.

(** The sum of the sizes of the strata. *)
Definition total (strata : list N) : N := foldr N.add 0 strata.

(** The sum of the products of the sizes of consecutive strata. *)
Fixpoint adjacent_products (strata : list N) : N :=
  match strata with
  | s_i :: ((s_next :: _) as rest) => s_i * s_next + adjacent_products rest
  | _ => 0
  end.
End StratifiedGraph.

(** * Properties *)

(** ** Conversions to [Index] *)

Lemma static_cast_of_N w (x : N) : static_cast w (Z.of_N x) = x mod 2 ^ w.
Proof.
  unfold static_cast.
  rewrite Z2N.inj_mod by (try apply Z.pow_nonneg; lia).
  rewrite Z2N.inj_pow by lia.
  by rewrite !N2Z.id.
Qed.

Lemma static_cast_fits w (x : N) :
  is_Index w x → static_cast w (Z.of_N x) = x.
Proof.
  intros Hx. rewrite static_cast_of_N. by apply N.mod_small.
Qed.

Lemma static_cast_is_Index w z : is_Index w (static_cast w z).
Proof.
  unfold is_Index, static_cast.
  assert (0 < 2 ^ Z.of_N w)%Z as Hpos by (apply Z.pow_pos_nonneg; lia).
  pose proof (Z.mod_pos_bound z _ Hpos) as [Hlo Hhi].
  apply N2Z.inj_lt. rewrite Z2N.id by done.
  rewrite N2Z.inj_pow. done.
Qed.

Lemma to_Index_fits w (x : N) : is_Index w x → to_Index w x = x.
Proof. apply static_cast_fits. Qed.

(** A range of [Index] values is copied as it is. *)
Lemma to_Index_typed w (input : list N) :
  Forall (is_Index w) input → to_Index w <$> input = input.
Proof.
  induction 1 as [|x input Hx _ IH]; [done|].
  by rewrite fmap_cons, IH, to_Index_fits.
Qed.

(** ** Running the accessors *)

Lemma data_at_Some column s c :
  column_of s column = Some c → data_at column s = (Return c, s).
Proof. unfold column_of, data_at. by intros ->. Qed.

Lemma data_at_None column s :
  column_of s column = None → data_at column s = (out_of_range, s).
Proof. unfold column_of, data_at. by intros ->. Qed.

Lemma dimensions_at_Some column s d :
  dimension_of s column = Some d → dimensions_at column s = (Return d, s).
Proof. unfold dimension_of, dimensions_at. by intros ->. Qed.

Lemma dimensions_at_None column s :
  dimension_of s column = None → dimensions_at column s = (out_of_range, s).
Proof. unfold dimension_of, dimensions_at. by intros ->. Qed.

Lemma in_range_column_of column s :
  in_range column s ↔ is_Some (column_of s column).
Proof. unfold in_range, column_of. by rewrite lookup_lt_is_Some. Qed.

Lemma out_of_range_column_of column s :
  ¬ in_range column s ↔ column_of s column = None.
Proof. unfold in_range, column_of. rewrite lookup_ge_None. lia. Qed.

Lemma wf_dimension_of w column s :
  wf w s → in_range column s → is_Some (dimension_of s column).
Proof.
  intros [Hlen _] Hin. unfold dimension_of, in_range in *.
  apply lookup_lt_is_Some. lia.
Qed.

Lemma wf_dimension_of_None w column s :
  wf w s → ¬ in_range column s → dimension_of s column = None.
Proof.
  intros [Hlen _] Hin. unfold dimension_of, in_range in *.
  apply lookup_ge_None. lia.
Qed.

Lemma wf_getNumColumns w s :
  wf w s → getNumColumns w s = (Return (N.of_nat (length (_data s))), s).
Proof.
  intros [_ Hsize]. unfold getNumColumns.
  by rewrite <- nat_N_Z, static_cast_fits.
Qed.

Lemma wf_in_range w column s n :
  wf w s → result (getNumColumns w) s = Return n →
  in_range column s ↔ column < n.
Proof.
  intros Hwf. unfold result. rewrite (wf_getNumColumns _ _ Hwf). simpl.
  intros [= <-]. unfold in_range. lia.
Qed.

Lemma result_getColumn column s :
  result (getColumn column) s =
  match column_of s column with Some c => Return c | None => out_of_range end.
Proof. unfold result, getColumn, data_at, column_of. by case_match. Qed.

Lemma result_getDimension column s :
  result (getDimension column) s =
  match dimension_of s column with
  | Some d => Return d
  | None => out_of_range
  end.
Proof.
  unfold result, getDimension, dimensions_at, dimension_of. by case_match.
Qed.

Lemma bind_Return {A B} (m : M A) (k : A → M B) s a s' :
  m s = (Return a, s') → bind m k s = k a s'.
Proof. unfold bind. by intros ->. Qed.

Lemma bind_out_of_range {A B} (m : M A) (k : A → M B) s s' :
  m s = (out_of_range, s') → bind m k s = (out_of_range, s').
Proof. unfold bind. by intros ->. Qed.

(** Unfolds the member functions down to list lookups and updates. *)
Ltac unfold_members :=
  unfold result, exec, setNumColumns, getNumColumns, getMaximumIndex,
    addColumns, setColumn, getColumn, clearColumn, getDimension,
    setDualized, isDualized, bind, data_at, data_store,
    dimensions_at, dimensions_store, ret, throw, column_of,
    dimension_of in *;
  simpl in *.

(** ** The dualization flag *)

(** C8.  A default-constructed matrix is not dualized; [isDualized]
    returns what the last [setDualized] stored; [setDualized] returns
    normally and leaves every column and every dimension tag as it was,
    and [isDualized] changes nothing at all. *)
Theorem setDualized_only_flag :
  result isDualized Vector_default = Return false ∧
  ∀ (s : Vector) (b : bool),
    result (setDualized b) s = Return () ∧
    result isDualized (exec (setDualized b) s) = Return b ∧
    _data (exec (setDualized b) s) = _data s ∧
    _dimensions (exec (setDualized b) s) = _dimensions s ∧
    exec isDualized s = s.
Proof. split; [reflexivity|]. intros s b. by repeat split. Qed.

(** ** [clearColumn] *)

(** C10.  On an in-range column [clearColumn] returns normally; the
    column is empty afterwards; [getDimension] of that column answers
    as before, no dimension tag and no other column has changed, and
    neither has the flag. *)
Theorem clearColumn_keeps_dimension (column : Index) (s : Vector) :
  in_range column s →
  ∃ s', clearColumn column s = (Return (), s') ∧
    result (getColumn column) s' = Return [] ∧
    result (getDimension column) s' = result (getDimension column) s ∧
    _dimensions s' = _dimensions s ∧
    (∀ other, other ≠ column → column_of s' other = column_of s other) ∧
    _isDualized s' = _isDualized s.
Proof.
  intros Hin. pose proof Hin as Hin'.
  apply in_range_column_of in Hin' as [c Hc].
  eexists. split.
  { unfold clearColumn, bind. rewrite (data_at_Some _ _ _ Hc). reflexivity. }
  rewrite !result_getDimension, result_getColumn.
  unfold column_of, dimension_of. simpl. repeat split.
  - by rewrite list_lookup_insert_eq.
  - intros other Hne. apply list_lookup_insert_ne.
    intros Heq. by apply Hne, N2Nat.inj.
Qed.

Lemma clearColumn_keeps_dimension_witness :
  ∃ s', clearColumn 1 (mkVector [[]; [0]] [0; 1] false) = (Return (), s') ∧
    result (getColumn 1) s' = Return [] ∧
    result (getDimension 1) s' =
      result (getDimension 1) (mkVector [[]; [0]] [0; 1] false) ∧
    _dimensions s' = _dimensions (mkVector [[]; [0]] [0; 1] false) ∧
    (∀ other, other ≠ 1 →
       column_of s' other = column_of (mkVector [[]; [0]] [0; 1] false) other) ∧
    _isDualized s' = _isDualized (mkVector [[]; [0]] [0; 1] false).
Proof.
  apply (clearColumn_keeps_dimension 1 (mkVector [[]; [0]] [0; 1] false)).
  unfold in_range. simpl. lia.
Defined.

(** ** The class invariant *)

Lemma wf_default w : wf w Vector_default.
Proof.
  split; [done|]. unfold is_Index. simpl.
  apply N.neq_0_lt_0. by apply N.pow_nonzero.
Qed.

Lemma setNumColumns_wf w n s : is_Index w n → wf w (exec (setNumColumns n) s).
Proof.
  intros Hn. unfold wf, exec, setNumColumns. simpl.
  rewrite !length_resize. split; [done|].
  by rewrite N2Nat.id.
Qed.

Lemma addColumns_sizes source target s :
  length (_data (exec (addColumns source target) s)) = length (_data s) ∧
  _dimensions (exec (addColumns source target) s) = _dimensions s ∧
  _isDualized (exec (addColumns source target) s) = _isDualized s.
Proof.
  unfold_members. repeat case_match; simplify_eq; simpl;
    by rewrite ?length_insert.
Qed.

Lemma setColumn_sizes w column input s :
  length (_data (exec (setColumn w column input) s)) = length (_data s) ∧
  length (_dimensions (exec (setColumn w column input) s))
    = length (_dimensions s) ∧
  _isDualized (exec (setColumn w column input) s) = _isDualized s.
Proof.
  unfold_members. repeat case_match; simplify_eq; simpl;
    by rewrite ?length_insert.
Qed.

Lemma clearColumn_sizes column s :
  length (_data (exec (clearColumn column) s)) = length (_data s) ∧
  _dimensions (exec (clearColumn column) s) = _dimensions s ∧
  _isDualized (exec (clearColumn column) s) = _isDualized s.
Proof.
  unfold_members. repeat case_match; simplify_eq; simpl;
    by rewrite ?length_insert.
Qed.

Lemma run_wf w c s : call_typed w c → wf w s → wf w (run w c s).
Proof.
  intros Hc [Hlen Hsize].
  destruct c as [n|source target|column input|column|b]; simpl.
  - by apply setNumColumns_wf.
  - destruct (addColumns_sizes source target s) as (Hd & Hdim & _).
    unfold wf. by rewrite Hd, Hdim.
  - destruct (setColumn_sizes w column input s) as (Hd & Hdim & _).
    unfold wf. by rewrite Hd, Hdim.
  - destruct (clearColumn_sizes column s) as (Hd & Hdim & _).
    unfold wf. by rewrite Hd, Hdim.
  - done.
Qed.

(** Every object a program can hold satisfies the class invariant. *)
Lemma reachable_wf w s : reachable w s → wf w s.
Proof.
  induction 1 as [|c s Hc _ IH]; [apply wf_default | by apply run_wf].
Qed.

Lemma edge_store_reachable : reachable 32 edge_store.
Proof.
  apply (reachable_call 32 (call_setColumn 2 [0; 1])).
  { split; [|repeat constructor]; unfold is_Index; by vm_compute. }
  apply (reachable_call 32 (call_setNumColumns 3)).
  { unfold call_typed, is_Index. by vm_compute. }
  apply reachable_default.
Qed.

(** ** [setNumColumns] *)

(** C3, as the code has it.  [setNumColumns n] resizes both member
    vectors with [std::vector::resize]: afterwards [getNumColumns]
    returns [n]; a column (a dimension tag) that existed before and has
    an index below [n] keeps its contents; the columns that are new are
    empty and their dimension tags are zero; nothing is stored at index
    [n] or above; the flag is untouched. *)
Theorem setNumColumns_resizes (w : N) (n : Index) (s : Vector) :
  is_Index w n →
  ∃ s', setNumColumns n s = (Return (), s') ∧
    result (getNumColumns w) s' = Return n ∧
    (∀ c, c < n →
       column_of s' c =
         if decide (N.to_nat c < length (_data s))%nat
         then column_of s c else Some []) ∧
    (∀ c, c < n →
       dimension_of s' c =
         if decide (N.to_nat c < length (_dimensions s))%nat
         then dimension_of s c else Some 0) ∧
    (∀ c, n ≤ c → column_of s' c = None ∧ dimension_of s' c = None) ∧
    _isDualized s' = _isDualized s.
Proof.
  intros Hn. eexists. split; [reflexivity|].
  unfold result, getNumColumns, column_of, dimension_of. simpl.
  rewrite length_resize, <- nat_N_Z, N2Nat.id, static_cast_fits by done.
  repeat split.
  - intros c Hc. case_decide.
    + apply lookup_resize; lia.
    + apply lookup_resize_new; lia.
  - intros c Hc. case_decide.
    + apply lookup_resize; lia.
    + apply lookup_resize_new; lia.
  - apply lookup_resize_old. lia.
  - apply lookup_resize_old. lia.
Qed.

Lemma setNumColumns_resizes_witness :
  ∃ s', setNumColumns 3 edge_store = (Return (), s') ∧
    result (getNumColumns 32) s' = Return 3 ∧
    (∀ c, c < 3 →
       column_of s' c =
         if decide (N.to_nat c < length (_data edge_store))%nat
         then column_of edge_store c else Some []) ∧
    (∀ c, c < 3 →
       dimension_of s' c =
         if decide (N.to_nat c < length (_dimensions edge_store))%nat
         then dimension_of edge_store c else Some 0) ∧
    (∀ c, 3 ≤ c → column_of s' c = None ∧ dimension_of s' c = None) ∧
    _isDualized s' = _isDualized edge_store.
Proof.
  apply (setNumColumns_resizes 32 3 edge_store).
  unfold is_Index. vm_compute. reflexivity.
Defined.

(** On a default-constructed object the first sizing call gives [n]
    empty columns with dimension zero. *)
Corollary setNumColumns_first (n c : Index) :
  c < n →
  column_of (exec (setNumColumns n) Vector_default) c = Some [] ∧
  dimension_of (exec (setNumColumns n) Vector_default) c = Some 0.
Proof.
  intros Hc. unfold column_of, dimension_of, exec, setNumColumns. simpl.
  split; apply lookup_resize_new; simpl; lia.
Qed.

(** C3, as the sentence has it, fails: a second [setNumColumns 3] on the
    three-column store whose column 2 holds the edge [0; 1] leaves that
    column and its dimension 1 in place. *)
Lemma setNumColumns_again_keeps_contents :
  result (getColumn 2) (exec (setNumColumns 3) edge_store) = Return [0; 1] ∧
  result (getColumn 2) (exec (setNumColumns 3) edge_store) ≠ Return [] ∧
  result (getDimension 2) (exec (setNumColumns 3) edge_store) = Return 1 ∧
  result (getDimension 2) (exec (setNumColumns 3) edge_store) ≠ Return 0.
Proof. vm_compute. by repeat split. Qed.

(** ** [setColumn] *)

Lemma derived_dimension_mod w input :
  input ≠ [] →
  derived_dimension w input = (N.of_nat (length input) - 1) mod 2 ^ w.
Proof.
  destruct input as [|x input]; [done|]. intros _.
  unfold derived_dimension. rewrite <- static_cast_of_N. f_equal.
  simpl length. lia.
Qed.

(** What [setColumn] does to an object that satisfies the invariant. *)
Lemma setColumn_in_range w column input s :
  wf w s → in_range column s →
  setColumn w column input s =
    (Return (),
     {| _data :=
          <[N.to_nat column := sort (to_Index w <$> input)]> (_data s);
        _dimensions :=
          <[N.to_nat column := derived_dimension w input]> (_dimensions s);
        _isDualized := _isDualized s |}).
Proof.
  intros Hwf Hin.
  destruct (wf_dimension_of _ _ _ Hwf Hin) as [d Hd].
  pose proof Hin as [c Hc]%in_range_column_of.
  unfold setColumn.
  erewrite bind_Return by by apply data_at_Some.
  erewrite bind_Return by reflexivity.
  erewrite bind_Return.
  2: { apply data_at_Some. by apply list_lookup_insert_eq. }
  erewrite bind_Return.
  2: { apply data_at_Some. by apply list_lookup_insert_eq. }
  erewrite bind_Return by reflexivity.
  erewrite bind_Return by by apply dimensions_at_Some.
  unfold dimensions_store. simpl. by rewrite list_insert_insert_eq.
Qed.

Lemma setColumn_getDimension w column input s :
  wf w s → in_range column s →
  result (getDimension column) (exec (setColumn w column input) s)
    = Return (derived_dimension w input).
Proof.
  intros Hwf Hin. unfold exec. rewrite setColumn_in_range by done.
  rewrite result_getDimension. unfold dimension_of. simpl.
  rewrite list_lookup_insert_eq; [done|].
  destruct Hwf as [-> _]. done.
Qed.

(** C5, as the code has it.  On an in-range column [setColumn] returns
    normally and [getDimension] then returns: 0 for an empty input; for
    an input of [k >= 1] indices the value [k - 1] converted to [Index],
    that is [k - 1] modulo [2^w]; this is [k - 1] itself whenever the
    count [k] does not exceed [2^w]. *)
Theorem setColumn_dimension (w : N) (column : Index) (input : list Index)
    (s : Vector) :
  reachable w s → in_range column s →
  ∃ s', setColumn w column input s = (Return (), s') ∧
    (input = [] → result (getDimension column) s' = Return 0) ∧
    (input ≠ [] →
       result (getDimension column) s' =
         Return ((N.of_nat (length input) - 1) mod 2 ^ w)) ∧
    (input ≠ [] → N.of_nat (length input) ≤ 2 ^ w →
       result (getDimension column) s' =
         Return (N.of_nat (length input) - 1)).
Proof.
  intros Hwf%reachable_wf Hin.
  eexists. split; [by apply setColumn_in_range|].
  pose proof (setColumn_getDimension w column input s Hwf Hin) as Hdim.
  unfold exec in Hdim. rewrite setColumn_in_range in Hdim by done.
  simpl in Hdim. rewrite Hdim.
  split; [by intros ->|]. split.
  - intros Hne. by rewrite derived_dimension_mod.
  - intros Hne Hk. rewrite derived_dimension_mod by done.
    rewrite N.mod_small; [done|].
    destruct input; [done|]. simpl length in *. lia.
Qed.

Lemma setColumn_dimension_witness :
  ∃ s', setColumn 32 2 [0; 1] edge_store = (Return (), s') ∧
    ([0; 1] = [] → result (getDimension 2) s' = Return 0) ∧
    ([0; 1] ≠ [] →
       result (getDimension 2) s' =
         Return ((N.of_nat (length [0; 1]) - 1) mod 2 ^ 32)) ∧
    ([0; 1] ≠ [] → N.of_nat (length [0; 1]) ≤ 2 ^ 32 →
       result (getDimension 2) s' =
         Return (N.of_nat (length [0; 1]) - 1)).
Proof.
  apply (setColumn_dimension 32 2 [0; 1] edge_store).
  - apply edge_store_reachable.
  - unfold in_range. simpl. lia.
Defined.

(** C5, as the sentence has it, fails where the count does not fit the
    index type.  With an 8-bit [Index], an input of 257 indices gets the
    dimension 0, not 256; with the default 32-bit [Index] the same
    happens for an input of 2^32 + 1 indices. *)
Lemma setColumn_dimension_wraps :
  (N.of_nat (length (replicate 257 (7 : Index))) - 1 = 256 ∧
   result (getDimension 0)
     (exec (setColumn 8 0 (replicate 257 7)) single_store) = Return 0) ∧
  (N.of_nat (length (replicate (N.to_nat 4294967297) (7 : Index))) - 1
     = 4294967296 ∧
   result (getDimension 0)
     (exec (setColumn 32 0 (replicate (N.to_nat 4294967297) 7)) single_store)
     = Return 0).
Proof.
  split; [split; by vm_compute|].
  split; [by rewrite length_replicate, N2Nat.id|].
  assert (wf 32 single_store) as Hwf.
  { split; [reflexivity|]. unfold is_Index. by vm_compute. }
  assert (in_range 0 single_store) as Hin.
  { unfold in_range. simpl. lia. }
  rewrite setColumn_getDimension, derived_dimension_mod by done.
  rewrite length_replicate, N2Nat.id. reflexivity.
Qed.

(** ** Out-of-range column indices *)

Lemma data_at_out_of_range {B} column (k : list Index → M B) s :
  ¬ in_range column s → bind (data_at column) k s = (out_of_range, s).
Proof.
  intros Hout. apply bind_out_of_range, data_at_None.
  by apply out_of_range_column_of.
Qed.

(** C7.  On every object that a program can hold, a column index at or
    above the column count makes each per-column member function leave
    with [std::out_of_range], and the object is exactly as before:
    columns, dimension tags and flag.  For [addColumns] this holds when
    either index is out of range. *)
Theorem out_of_range_column (w : N) (column n : Index) (s : Vector) :
  reachable w s →
  result (getNumColumns w) s = Return n →
  n ≤ column →
  getMaximumIndex column s = (out_of_range, s) ∧
  (∀ other, addColumns column other s = (out_of_range, s)) ∧
  (∀ other, addColumns other column s = (out_of_range, s)) ∧
  (∀ input, setColumn w column input s = (out_of_range, s)) ∧
  getColumn column s = (out_of_range, s) ∧
  clearColumn column s = (out_of_range, s) ∧
  getDimension column s = (out_of_range, s).
Proof.
  intros Hwf%reachable_wf Hn Hle.
  assert (¬ in_range column s) as Hout.
  { rewrite (wf_in_range _ _ _ _ Hwf Hn). lia. }
  repeat split.
  - by apply data_at_out_of_range.
  - intros other. by apply data_at_out_of_range.
  - intros other. unfold addColumns.
    destruct (column_of s other) as [c|] eqn:Hother.
    + erewrite bind_Return by by apply data_at_Some.
      by apply data_at_out_of_range.
    + by apply bind_out_of_range, data_at_None.
  - intros input. by apply data_at_out_of_range.
  - by apply data_at_None, out_of_range_column_of.
  - by apply data_at_out_of_range.
  - by eapply dimensions_at_None, wf_dimension_of_None.
Qed.

Lemma out_of_range_column_witness :
  getMaximumIndex 3 edge_store = (out_of_range, edge_store) ∧
  (∀ other, addColumns 3 other edge_store = (out_of_range, edge_store)) ∧
  (∀ other, addColumns other 3 edge_store = (out_of_range, edge_store)) ∧
  (∀ input, setColumn 32 3 input edge_store = (out_of_range, edge_store)) ∧
  getColumn 3 edge_store = (out_of_range, edge_store) ∧
  clearColumn 3 edge_store = (out_of_range, edge_store) ∧
  getDimension 3 edge_store = (out_of_range, edge_store).
Proof.
  apply (out_of_range_column 32 3 3 edge_store).
  - apply edge_store_reachable.
  - reflexivity.
  - lia.
Defined.

(** ** [getMaximumIndex] *)

Lemma back_cons x y l : back (x :: y :: l) = back (y :: l).
Proof. reflexivity. Qed.

Lemma ascending_inv x c :
  ascending (x :: c) → ascending c ∧ Forall (N.le x) c.
Proof.
  intros Hs. apply (Sorted_StronglySorted _) in Hs.
  apply StronglySorted_inv in Hs as [Hc Hx].
  split; [by apply StronglySorted_Sorted | done].
Qed.

(** The last element of a non-empty ascending column is its maximum. *)
Lemma back_is_maximum c : ascending c → c ≠ [] → is_maximum (back c) c.
Proof.
  induction c as [|x [|y c] IH]; intros Hasc Hne; [done| |].
  - split; [by left|]. intros z ->%list_elem_of_singleton. done.
  - apply ascending_inv in Hasc as [Hasc Hx].
    destruct (IH Hasc) as [Hin Hmax]; [done|].
    rewrite back_cons. split; [by right|].
    intros z [->|Hz]%elem_of_cons; [|by apply Hmax].
    rewrite Forall_forall in Hx. by apply Hx.
Qed.

(** C4.  For a stored column that is sorted ascending,
    [getMaximumIndex] returns normally and changes nothing; the flag of
    the returned pair is [false] when the column is empty, and otherwise
    the pair is [(p, true)] with [p] the largest row index of the
    column. *)
Theorem getMaximumIndex_maximum (column : Index) (s : Vector)
    (c : list Index) :
  column_of s column = Some c →
  ascending c →
  ∃ p b, getMaximumIndex column s = (Return (p, b), s) ∧
    (c = [] → b = false) ∧
    (c ≠ [] → b = true ∧ is_maximum p c).
Proof.
  intros Hc Hasc. unfold getMaximumIndex.
  erewrite bind_Return by by apply data_at_Some.
  case_bool_decide as Hnil.
  - exists 0, false. by repeat split.
  - exists (back c), true.
    erewrite bind_Return by by apply data_at_Some.
    repeat split; [done|by apply back_is_maximum..].
Qed.

Lemma getMaximumIndex_maximum_witness :
  ∃ p b, getMaximumIndex 2 edge_store = (Return (p, b), edge_store) ∧
    ([0; 1] = [] → b = false) ∧
    ([0; 1] ≠ [] → b = true ∧ is_maximum p [0; 1]).
Proof.
  apply (getMaximumIndex_maximum 2 edge_store [0; 1]).
  - reflexivity.
  - unfold ascending. repeat constructor; vm_compute; discriminate.
Defined.

(** ** [getDimension()] *)

Lemma max_element_ge x l : x ≤ max_element x l.
Proof.
  revert x. induction l as [|y l IH]; intros x; simpl; [done|].
  destruct (N.ltb_spec x y); [|done].
  specialize (IH y). lia.
Qed.

(** The overload without argument returns the largest dimension tag, and
    zero when there are no columns. *)
Lemma getDimension_all_maximum s :
  ∃ d, getDimension_all s = (Return d, s) ∧
    match _dimensions s with
    | [] => d = 0
    | _ :: _ => is_maximum d (_dimensions s)
    end.
Proof.
  unfold getDimension_all. destruct (_dimensions s) as [|x l].
  { by exists 0. }
  exists (max_element x l). split; [done|].
  revert x. induction l as [|y l IH]; intros x; simpl.
  - split; [by left|]. by intros z ->%list_elem_of_singleton.
  - destruct (IH (if x <? y then y else x)) as [Hin Hmax].
    pose proof (max_element_ge (if x <? y then y else x) l) as Hge.
    split.
    + apply elem_of_cons in Hin as [Hin|Hin]; [|by do 2 right].
      rewrite Hin. destruct (x <? y); [right|]; by left.
    + intros z [->|[->|Hz]%elem_of_cons]%elem_of_cons.
      * destruct (N.ltb_spec x y); lia.
      * destruct (N.ltb_spec x y); lia.
      * apply Hmax. by right.
Qed.

(** ** [std::sort] *)

Lemma sort_insert_Permutation x l : sort_insert x l ≡ₚ x :: l.
Proof.
  induction l as [|y l IH]; simpl; [done|].
  case_match; [done|]. rewrite IH. apply Permutation_swap.
Qed.

Lemma sort_Permutation l : sort l ≡ₚ l.
Proof.
  induction l as [|x l IH]; simpl; [done|].
  by rewrite sort_insert_Permutation, IH.
Qed.

Lemma sort_insert_ascending x l :
  ascending l → ascending (sort_insert x l).
Proof.
  unfold ascending. induction 1 as [|y l Hl IH Hy]; simpl.
  - by repeat constructor.
  - destruct (N.leb_spec x y) as [Hxy|Hxy].
    + by repeat constructor.
    + constructor; [done|].
      destruct Hy as [|z l Hyz]; simpl.
      * constructor. lia.
      * case_match; constructor; [lia|done].
Qed.

Lemma sort_ascending l : ascending (sort l).
Proof.
  induction l as [|x l IH]; simpl; [constructor|].
  by apply sort_insert_ascending.
Qed.

(** The result of sorting is determined by the input: whatever
    algorithm [std::sort] runs, it returns [sort l]. *)
Lemma sort_unique l l' : ascending l' → l' ≡ₚ l → l' = sort l.
Proof.
  intros Hasc Hperm. apply (Sorted_unique N.le); [done|apply sort_ascending|].
  by rewrite sort_Permutation.
Qed.

(** Whatever the values of the range, the stored column is the range
    converted element by element to [Index] and then sorted. *)
Lemma setColumn_stores_converted w column input s :
  wf w s → in_range column s →
  result (getColumn column) (exec (setColumn w column input) s)
  = Return (sort (to_Index w <$> input)).
Proof.
  intros Hwf Hin. unfold exec. rewrite setColumn_in_range by done.
  rewrite result_getColumn. unfold column_of. simpl.
  by rewrite list_lookup_insert_eq.
Qed.

(** A value beyond the 32-bit index type is narrowed on the way in. *)
Example setColumn_narrows :
  result (getColumn 0) (exec (setColumn 32 0 [4294967301; 3]) single_store)
  = Return [3; 5].
Proof. by vm_compute. Qed.

(** C1, as the code has it.  On an in-range column and for an input of
    index values, [setColumn] returns normally and the stored column is
    the input rearranged in ascending order: it is sorted and holds
    every input index as often as the input does.  Duplicates are kept,
    so the stored column is free of duplicates exactly when the input
    is. *)
Theorem setColumn_sorts (w : N) (column : Index) (input : list Index)
    (s : Vector) :
  reachable w s → in_range column s → Forall (is_Index w) input →
  ∃ s' c, setColumn w column input s = (Return (), s') ∧
    result (getColumn column) s' = Return c ∧
    ascending c ∧
    c ≡ₚ input ∧
    (NoDup c ↔ NoDup input).
Proof.
  intros Hwf%reachable_wf Hin Htyped. eexists. exists (sort input).
  split; [by apply setColumn_in_range|].
  rewrite result_getColumn. unfold column_of. simpl.
  rewrite list_lookup_insert_eq by done.
  rewrite (to_Index_typed _ _ Htyped).
  split; [done|]. split; [apply sort_ascending|].
  split; [apply sort_Permutation|].
  by rewrite sort_Permutation.
Qed.

Lemma setColumn_sorts_witness :
  ∃ s' c, setColumn 32 2 [1; 0] edge_store = (Return (), s') ∧
    result (getColumn 2) s' = Return c ∧
    ascending c ∧
    c ≡ₚ [1; 0] ∧
    (NoDup c ↔ NoDup [1; 0]).
Proof.
  apply (setColumn_sorts 32 2 [1; 0] edge_store).
  - apply edge_store_reachable.
  - unfold in_range. simpl. lia.
  - repeat constructor; unfold is_Index; by vm_compute.
Defined.

(** C1, as the sentence has it, fails: an input that repeats an index
    is stored with the repetition. *)
Lemma setColumn_keeps_duplicates :
  result (getColumn 0) (exec (setColumn 32 0 [1; 1]) single_store)
    = Return [1; 1] ∧
  ¬ NoDup [1 : Index; 1].
Proof.
  split; [reflexivity|].
  intros Hnd. apply NoDup_cons in Hnd as [Hnotin _].
  apply Hnotin. by left.
Qed.

(** ** [std::set_symmetric_difference] *)

Lemma set_symmetric_difference_nil_r l : set_symmetric_difference l [] = l.
Proof. by destruct l. Qed.

Lemma set_symmetric_difference_cons x t1 y t2 :
  set_symmetric_difference (x :: t1) (y :: t2) =
    if x <? y then x :: set_symmetric_difference t1 (y :: t2)
    else if y <? x then y :: set_symmetric_difference (x :: t1) t2
    else set_symmetric_difference t1 t2.
Proof. reflexivity. Qed.

(** Induction along the merge loop. *)
Lemma set_symmetric_difference_ind (P : list Index → list Index → Prop) :
  (∀ l2, P [] l2) →
  (∀ l1, P l1 []) →
  (∀ x t1 y t2, x < y → P t1 (y :: t2) → P (x :: t1) (y :: t2)) →
  (∀ x t1 y t2, y < x → P (x :: t1) t2 → P (x :: t1) (y :: t2)) →
  (∀ x t1 t2, P t1 t2 → P (x :: t1) (x :: t2)) →
  ∀ l1 l2, P l1 l2.
Proof.
  intros Hnil_l Hnil_r Hlt Hgt Heq.
  induction l1 as [|x t1 IH1]; [done|].
  induction l2 as [|y t2 IH2]; [done|].
  destruct (N.lt_trichotomy x y) as [Hxy|[->|Hxy]]; auto.
Qed.

(** Nothing is invented: every output index comes from an input. *)
Lemma set_symmetric_difference_subset l1 l2 z :
  z ∈ set_symmetric_difference l1 l2 → z ∈ l1 ∨ z ∈ l2.
Proof.
  revert l1 l2.
  refine (set_symmetric_difference_ind _ _ _ _ _ _); cbv beta.
  - auto.
  - intros l1. rewrite set_symmetric_difference_nil_r. auto.
  - intros x t1 y t2 Hxy IH. rewrite set_symmetric_difference_cons.
    rewrite (proj2 (N.ltb_lt _ _) Hxy).
    intros [->|Hz]%elem_of_cons; [left; by left|].
    destruct (IH Hz); [left; by right|by right].
  - intros x t1 y t2 Hxy IH. rewrite set_symmetric_difference_cons.
    rewrite (proj2 (N.ltb_ge _ _)) by lia.
    rewrite (proj2 (N.ltb_lt _ _) Hxy).
    intros [->|Hz]%elem_of_cons; [right; by left|].
    destruct (IH Hz); [by left|right; by right].
  - intros x t1 t2 IH. rewrite set_symmetric_difference_cons.
    rewrite N.ltb_irrefl.
    intros Hz. destruct (IH Hz); [left|right]; by right.
Qed.

Lemma strictly_ascending_inv x c :
  strictly_ascending (x :: c) → strictly_ascending c ∧ Forall (N.lt x) c.
Proof.
  intros Hs. apply (Sorted_StronglySorted _) in Hs.
  apply StronglySorted_inv in Hs as [Hc Hx].
  split; [by apply StronglySorted_Sorted | done].
Qed.

Lemma strictly_ascending_cons x c :
  strictly_ascending c → Forall (N.lt x) c → strictly_ascending (x :: c).
Proof.
  intros Hc Hx. constructor; [done|].
  destruct Hx; by constructor.
Qed.

Lemma strictly_ascending_NoDup c : strictly_ascending c → NoDup c.
Proof.
  induction c as [|x c IH]; intros Hs; [constructor|].
  apply strictly_ascending_inv in Hs as [Hc Hx].
  constructor; [|by apply IH].
  intros Hin. rewrite Forall_forall in Hx. specialize (Hx _ Hin). lia.
Qed.

Lemma strictly_ascending_ascending c : strictly_ascending c → ascending c.
Proof.
  unfold strictly_ascending, ascending.
  induction 1 as [|x c Hc IH Hx]; constructor; [done|].
  destruct Hx; constructor. lia.
Qed.

(** "Sorted ascending and free of duplicates" is strict ascent. *)
Lemma ascending_NoDup_strictly c :
  ascending c → NoDup c → strictly_ascending c.
Proof.
  induction c as [|x c IH]; intros Hasc Hnd; [constructor|].
  apply ascending_inv in Hasc as [Hasc Hx].
  apply NoDup_cons in Hnd as [Hnotin Hnd].
  apply strictly_ascending_cons; [by apply IH|].
  rewrite Forall_forall in Hx |- *. intros y Hy.
  specialize (Hx _ Hy). assert (x ≠ y) by (by intros ->). lia.
Qed.

(** Two strictly ascending columns with the same indices are equal. *)
Lemma strictly_ascending_ext c1 c2 :
  strictly_ascending c1 → strictly_ascending c2 →
  (∀ z, z ∈ c1 ↔ z ∈ c2) → c1 = c2.
Proof.
  intros H1 H2 Hext.
  apply (Sorted_unique_strong N.lt); [|done|done|].
  - intros x1 x2 _ _ ? ?. lia.
  - apply NoDup_Permutation; [by apply strictly_ascending_NoDup..|done].
Qed.

(** On strictly ascending columns the merge loop computes the symmetric
    difference of the two index sets, strictly ascending again. *)
Lemma set_symmetric_difference_spec l1 l2 :
  strictly_ascending l1 → strictly_ascending l2 →
  strictly_ascending (set_symmetric_difference l1 l2) ∧
  ∀ z, z ∈ set_symmetric_difference l1 l2 ↔
       (z ∈ l1 ∧ z ∉ l2) ∨ ((z ∉ l1) ∧ z ∈ l2).
Proof.
  revert l1 l2.
  refine (set_symmetric_difference_ind _ _ _ _ _ _); cbv beta.
  - intros l2 _ H2. split; [done|]. intros z. split.
    + intros Hz. right. split; [|done]. by intros ?%elem_of_nil.
    + intros [[?%elem_of_nil _]|[_ Hz]]; done.
  - intros l1 H1 _. rewrite set_symmetric_difference_nil_r.
    split; [done|]. intros z. split.
    + intros Hz. left. split; [done|]. by intros ?%elem_of_nil.
    + intros [[Hz _]|[_ ?%elem_of_nil]]; done.
  - intros x t1 y t2 Hxy IH H1 H2. rewrite set_symmetric_difference_cons.
    rewrite (proj2 (N.ltb_lt _ _) Hxy).
    pose proof H1 as [Ht1 Hx1]%strictly_ascending_inv.
    pose proof H2 as [Ht2 Hy2]%strictly_ascending_inv.
    destruct (IH Ht1 H2) as [IHs IHz].
    rewrite Forall_forall in Hx1, Hy2. split.
    + apply strictly_ascending_cons; [done|].
      rewrite Forall_forall. intros z Hz.
      apply set_symmetric_difference_subset in Hz as [Hz|Hz]; [by apply Hx1|].
      apply elem_of_cons in Hz as [->|Hz]; [done|].
      specialize (Hy2 _ Hz). lia.
    + intros z. rewrite !elem_of_cons, IHz, !elem_of_cons.
      split.
      * intros [->|[[Hz Hn]|[Hn Hz]]].
        -- left. split; [by left|]. intros [?|Hz]; [lia|].
           specialize (Hy2 _ Hz). lia.
        -- left. split; [by right|done].
        -- right. split; [|done]. intros [->|Hz']; [|done].
           destruct Hz as [->|Hz]; [lia|]. specialize (Hy2 _ Hz). lia.
      * intros [[[->|Hz] Hn]|[Hn Hz]]; [by left|right; by left|].
        right. right. split; [|done]. intros Hz'. apply Hn. by right.
  - intros x t1 y t2 Hxy IH H1 H2. rewrite set_symmetric_difference_cons.
    rewrite (proj2 (N.ltb_ge _ _)) by lia.
    rewrite (proj2 (N.ltb_lt _ _) Hxy).
    pose proof H1 as [Ht1 Hx1]%strictly_ascending_inv.
    pose proof H2 as [Ht2 Hy2]%strictly_ascending_inv.
    destruct (IH H1 Ht2) as [IHs IHz].
    rewrite Forall_forall in Hx1, Hy2. split.
    + apply strictly_ascending_cons; [done|].
      rewrite Forall_forall. intros z Hz.
      apply set_symmetric_difference_subset in Hz as [Hz|Hz]; [|by apply Hy2].
      apply elem_of_cons in Hz as [->|Hz]; [done|].
      specialize (Hx1 _ Hz). lia.
    + intros z. rewrite !elem_of_cons, IHz, !elem_of_cons.
      split.
      * intros [->|[[Hz Hn]|[Hn Hz]]].
        -- right. split; [|by left]. intros [?|Hz]; [lia|].
           specialize (Hx1 _ Hz). lia.
        -- left. split; [done|]. intros [->|Hz']; [|done].
           destruct Hz as [->|Hz]; [lia|]. specialize (Hx1 _ Hz). lia.
        -- right. split; [done|by right].
      * intros [[Hz Hn]|[Hn [->|Hz]]]; [|by left|right; right; by split].
        right. left. split; [done|]. intros Hz'. apply Hn. by right.
  - intros x t1 t2 IH H1 H2. rewrite set_symmetric_difference_cons.
    rewrite N.ltb_irrefl.
    pose proof H1 as [Ht1 Hx1]%strictly_ascending_inv.
    pose proof H2 as [Ht2 Hx2]%strictly_ascending_inv.
    destruct (IH Ht1 Ht2) as [IHs IHz].
    rewrite Forall_forall in Hx1, Hx2. split; [done|].
    intros z. rewrite IHz, !elem_of_cons. split.
    + intros [[Hz Hn]|[Hn Hz]].
      * left. split; [by right|]. intros [->|Hz']; [|done].
        specialize (Hx1 _ Hz). lia.
      * right. split; [|by right]. intros [->|Hz']; [|done].
        specialize (Hx2 _ Hz). lia.
    + intros [[[->|Hz] Hn]|[Hn [->|Hz]]].
      * exfalso. apply Hn. by left.
      * left. split; [done|]. intros Hz'. apply Hn. by right.
      * exfalso. apply Hn. by left.
      * right. split; [|done]. intros Hz'. apply Hn. by right.
Qed.

(** Adding a column twice gives back the column: the symmetric
    difference is an involution. *)
Lemma set_symmetric_difference_involutive l1 l2 :
  strictly_ascending l1 → strictly_ascending l2 →
  set_symmetric_difference l1 (set_symmetric_difference l1 l2) = l2.
Proof.
  intros H1 H2.
  destruct (set_symmetric_difference_spec l1 l2 H1 H2) as [Hs Hz].
  destruct (set_symmetric_difference_spec l1 _ H1 Hs) as [Hs' Hz'].
  apply strictly_ascending_ext; [done..|].
  intros z. rewrite Hz', Hz.
  destruct (decide (z ∈ l1)), (decide (z ∈ l2)); tauto.
Qed.

(** ** [addColumns] *)

(** What [addColumns] does when both columns exist. *)
Lemma addColumns_in_range source target s A B :
  column_of s source = Some A → column_of s target = Some B →
  addColumns source target s =
    (Return (),
     {| _data :=
          <[N.to_nat target := set_symmetric_difference A B]> (_data s);
        _dimensions := _dimensions s;
        _isDualized := _isDualized s |}).
Proof.
  intros HA HB. unfold addColumns.
  erewrite bind_Return by by apply data_at_Some.
  erewrite bind_Return by by apply data_at_Some.
  reflexivity.
Qed.

Lemma column_of_data_store_eq target c s :
  in_range target s →
  column_of (exec (data_store target c) s) target = Some c.
Proof. intros Hin. by apply list_lookup_insert_eq. Qed.

Lemma column_of_data_store_ne target other c s :
  other ≠ target →
  column_of (exec (data_store target c) s) other = column_of s other.
Proof.
  intros Hne. apply list_lookup_insert_ne.
  intros Heq. by apply Hne, N2Nat.inj.
Qed.

(** C2, as the code has it.  When the source and the target column are
    both sorted ascending and free of duplicates, [addColumns] returns
    normally and the target column then holds exactly the row indices
    that occur in exactly one of the two columns, sorted ascending and
    free of duplicates; every column other than the target is as before
    (so the source is, when it is not the target itself), and so are all
    dimension tags and the flag. *)
Theorem addColumns_symmetric_difference (source target : Index)
    (s : Vector) (A B : list Index) :
  column_of s source = Some A → column_of s target = Some B →
  ascending A → NoDup A → ascending B → NoDup B →
  ∃ s' C, addColumns source target s = (Return (), s') ∧
    column_of s' target = Some C ∧
    (∀ z, z ∈ C ↔ (z ∈ A ∧ z ∉ B) ∨ ((z ∉ A) ∧ z ∈ B)) ∧
    ascending C ∧ NoDup C ∧
    (∀ other, other ≠ target → column_of s' other = column_of s other) ∧
    _dimensions s' = _dimensions s ∧
    _isDualized s' = _isDualized s.
Proof.
  intros HA HB HascA HndA HascB HndB.
  pose proof (ascending_NoDup_strictly _ HascA HndA) as HsA.
  pose proof (ascending_NoDup_strictly _ HascB HndB) as HsB.
  destruct (set_symmetric_difference_spec A B HsA HsB) as [HsC HzC].
  eexists. exists (set_symmetric_difference A B).
  split; [by apply addColumns_in_range|].
  split.
  { apply (column_of_data_store_eq target _ s), in_range_column_of.
    by eexists. }
  split; [done|].
  split; [by apply strictly_ascending_ascending|].
  split; [by apply strictly_ascending_NoDup|].
  split; [|done].
  intros other Hne. by apply (column_of_data_store_ne target other _ s).
Qed.

Lemma addColumns_symmetric_difference_witness :
  ∃ s' C,
    addColumns 1 2 (mkVector [[]; [0; 2]; [0; 1]] [0; 1; 1] false)
      = (Return (), s') ∧
    column_of s' 2 = Some C ∧
    (∀ z, z ∈ C ↔
       (z ∈ [0; 2] ∧ z ∉ [0; 1]) ∨ ((z ∉ [0; 2]) ∧ z ∈ [0; 1])) ∧
    ascending C ∧ NoDup C ∧
    (∀ other, other ≠ 2 →
       column_of s' other =
         column_of (mkVector [[]; [0; 2]; [0; 1]] [0; 1; 1] false) other) ∧
    _dimensions s' = [0; 1; 1] ∧
    _isDualized s' = false.
Proof.
  apply (addColumns_symmetric_difference 1 2
           (mkVector [[]; [0; 2]; [0; 1]] [0; 1; 1] false) [0; 2] [0; 1]).
  - reflexivity.
  - reflexivity.
  - unfold ascending. repeat constructor; vm_compute; discriminate.
  - by apply (bool_decide_unpack _).
  - unfold ascending. repeat constructor; vm_compute; discriminate.
  - by apply (bool_decide_unpack _).
Defined.

(** C2, as the sentence has it, fails in two ways.  A stored column may
    repeat an index ([duplicate_store] got its column 0 from
    [setColumn]), and adding it to the empty column 1 leaves the
    repetition in the target.  And with the source equal to the target
    the source column does not stay as it was: it becomes empty. *)
Lemma addColumns_duplicates_and_aliasing :
  (column_of duplicate_store 0 = Some [1; 1] ∧
   column_of duplicate_store 1 = Some [] ∧
   column_of (exec (addColumns 0 1) duplicate_store) 1 = Some [1; 1] ∧
   ¬ NoDup [1 : Index; 1]) ∧
  (column_of edge_store 2 = Some [0; 1] ∧
   result (addColumns 2 2) edge_store = Return () ∧
   column_of (exec (addColumns 2 2) edge_store) 2 = Some [] ∧
   column_of (exec (addColumns 2 2) edge_store) 2 ≠ column_of edge_store 2).
Proof.
  split.
  - repeat split; try reflexivity.
    intros Hnd. apply NoDup_cons in Hnd as [Hnotin _].
    apply Hnotin. by left.
  - repeat split; try reflexivity. vm_compute. discriminate.
Qed.

(** C9.  For two distinct in-range columns that are sorted ascending and
    free of duplicates, two calls of [addColumns source target] in a row
    both return normally and leave the target column, and the whole
    object, exactly as it was at the start. *)
Theorem addColumns_twice (source target : Index) (s : Vector)
    (A B : list Index) :
  source ≠ target →
  column_of s source = Some A → column_of s target = Some B →
  ascending A → NoDup A → ascending B → NoDup B →
  ∃ s1 s2,
    addColumns source target s = (Return (), s1) ∧
    addColumns source target s1 = (Return (), s2) ∧
    column_of s2 target = Some B ∧
    s2 = s.
Proof.
  intros Hne HA HB HascA HndA HascB HndB.
  pose proof (ascending_NoDup_strictly _ HascA HndA) as HsA.
  pose proof (ascending_NoDup_strictly _ HascB HndB) as HsB.
  assert (in_range target s) as Hin.
  { apply in_range_column_of. by eexists. }
  pose proof (addColumns_in_range _ _ _ _ _ HA HB) as Hrun1.
  eexists. eexists. split; [exact Hrun1|].
  match type of Hrun1 with _ = (_, ?t) => set (s1 := t) in * end.
  assert (column_of s1 source = Some A) as HA1.
  { rewrite <- HA. by apply (column_of_data_store_ne target source _ s). }
  assert (column_of s1 target = Some (set_symmetric_difference A B)) as HB1.
  { by apply (column_of_data_store_eq target _ s). }
  rewrite (addColumns_in_range _ _ _ _ _ HA1 HB1).
  rewrite set_symmetric_difference_involutive by done.
  split; [reflexivity|]. subst s1. unfold column_of in *. simpl.
  rewrite list_insert_insert_eq, list_insert_id by done.
  split; [done|]. by destruct s.
Qed.

Lemma addColumns_twice_witness :
  ∃ s1 s2,
    addColumns 1 2 (mkVector [[]; [0; 2]; [0; 1]] [0; 1; 1] false)
      = (Return (), s1) ∧
    addColumns 1 2 s1 = (Return (), s2) ∧
    column_of s2 2 = Some [0; 1] ∧
    s2 = mkVector [[]; [0; 2]; [0; 1]] [0; 1; 1] false.
Proof.
  apply (addColumns_twice 1 2
           (mkVector [[]; [0; 2]; [0; 1]] [0; 1; 1] false) [0; 2] [0; 1]).
  - discriminate.
  - reflexivity.
  - reflexivity.
  - unfold ascending. repeat constructor; vm_compute; discriminate.
  - by apply (bool_decide_unpack _).
  - unfold ascending. repeat constructor; vm_compute; discriminate.
  - by apply (bool_decide_unpack _).
Defined.

(** ** The reduction engine *)

Lemma result_getMaximumIndex column s :
  result (getMaximumIndex column) s =
  match column_of s column with
  | None => out_of_range
  | Some c => if bool_decide (c = []) then Return (0, false)
              else Return (back c, true)
  end.
Proof.
  unfold result, getMaximumIndex.
  destruct (column_of s column) as [c|] eqn:Hc.
  - erewrite bind_Return by by apply data_at_Some.
    case_bool_decide; [done|].
    by erewrite bind_Return by by apply data_at_Some.
  - by erewrite bind_out_of_range by by apply data_at_None.
Qed.

Lemma has_pivot_column_of k p s :
  has_pivot k p s ↔ ∃ c, column_of s k = Some c ∧ c ≠ [] ∧ back c = p.
Proof.
  unfold has_pivot. rewrite result_getMaximumIndex. split.
  - destruct (column_of s k) as [c|]; [|done].
    case_bool_decide; [done|]. intros [= <-]. by exists c.
  - intros (c & -> & Hne & <-). by rewrite bool_decide_eq_false_2.
Qed.

Lemma has_pivot_functional k p q s :
  has_pivot k p s → has_pivot k q s → p = q.
Proof. unfold has_pivot. intros -> [=]. done. Qed.

(** [addColumns k j] writes to column [j] only, also when it throws. *)
Lemma addColumns_column_of_ne k j c s :
  c ≠ j → column_of (exec (addColumns k j) s) c = column_of s c.
Proof.
  intros Hne. unfold exec, addColumns.
  destruct (column_of s k) as [A|] eqn:HA.
  2: { by erewrite bind_out_of_range by by apply data_at_None. }
  erewrite bind_Return by by apply data_at_Some.
  destruct (column_of s j) as [B|] eqn:HB.
  2: { by erewrite bind_out_of_range by by apply data_at_None. }
  erewrite bind_Return by by apply data_at_Some.
  by apply (column_of_data_store_ne j c _ s).
Qed.

Lemma addColumns_has_pivot_ne k j c p s :
  c ≠ j → has_pivot c p (exec (addColumns k j) s) ↔ has_pivot c p s.
Proof.
  intros Hne. unfold has_pivot.
  by rewrite !result_getMaximumIndex, addColumns_column_of_ne.
Qed.

Lemma addColumns_prefix_reduced k j s :
  prefix_reduced j s → prefix_reduced j (exec (addColumns k j) s).
Proof.
  intros Hred k1 k2 p Hk1 Hk2.
  rewrite !addColumns_has_pivot_ne by lia. by apply Hred.
Qed.

(** Once column [j] is done, the prefix up to and including [j] is
    reduced. *)
Lemma reduce_column_prefix_reduced j s s' :
  reduce_column j s s' → prefix_reduced j s → prefix_reduced (j + 1) s'.
Proof.
  induction 1 as [s p Hzero|s p Hp Hnone|s p k s' Hp Hk Hkp _ IH];
    intros Hred.
  - intros k1 k2 q Hk1 Hk2 H1 H2.
    destruct (decide (k1 = j)) as [->|]; [unfold has_pivot in *; congruence|].
    destruct (decide (k2 = j)) as [->|]; [unfold has_pivot in *; congruence|].
    apply (Hred k1 k2 q); [lia..|done|done].
  - intros k1 k2 q Hk1 Hk2 H1 H2.
    destruct (decide (k1 = j)) as [->|], (decide (k2 = j)) as [->|];
      [done| | |].
    + rewrite <- (has_pivot_functional _ _ _ _ Hp H1) in H2.
      destruct (Hnone k2); [lia|done].
    + rewrite <- (has_pivot_functional _ _ _ _ Hp H2) in H1.
      destruct (Hnone k1); [lia|done].
    + apply (Hred k1 k2 q); [lia..|done|done].
  - by apply IH, addColumns_prefix_reduced.
Qed.

(** With a reduced prefix the elimination of column [j] has one
    outcome: the earlier column that holds the pivot is unique. *)
Lemma reduce_column_deterministic j s s1 s2 :
  prefix_reduced j s →
  reduce_column j s s1 → reduce_column j s s2 → s1 = s2.
Proof.
  intros Hred Hrun1. revert s2 Hred.
  induction Hrun1 as [s p Hzero|s p Hp Hnone|s p k s' Hp Hk Hkp _ IH];
    intros s2 Hred Hrun2.
  - destruct Hrun2 as [s q Hzero'|s q Hq Hnone'|s q k' s'' Hq Hk' Hkq _];
      [done|done|].
    unfold has_pivot in *. congruence.
  - destruct Hrun2 as [s q Hzero'|s q Hq Hnone'|s q k' s'' Hq Hk' Hkq _];
      [done|done|].
    rewrite <- (has_pivot_functional _ _ _ _ Hp Hq) in Hkq.
    destruct (Hnone k'); done.
  - destruct Hrun2 as [s q Hzero'|s q Hq Hnone'|s q k' s'' Hq Hk' Hkq Hrun2].
    + unfold has_pivot in *. congruence.
    + rewrite <- (has_pivot_functional _ _ _ _ Hq Hp) in Hkp.
      destruct (Hnone' k); done.
    + rewrite <- (has_pivot_functional _ _ _ _ Hp Hq) in Hkq.
      assert (k' = k) as -> by by apply (Hred k' k p).
      apply IH; [by apply addColumns_prefix_reduced|done].
Qed.

Lemma sweep_deterministic n j s s1 s2 :
  prefix_reduced j s → sweep n j s s1 → sweep n j s s2 → s1 = s2.
Proof.
  intros Hred Hrun1. revert s2 Hred.
  induction Hrun1 as [j s Hj|j s s' s'' Hj Hcol _ IH]; intros s2 Hred Hrun2.
  - destruct Hrun2 as [|j s t t' Hj']; [done|lia].
  - destruct Hrun2 as [j s Hj'|j s t t' Hj' Hcol' Hrun2]; [lia|].
    rewrite <- (reduce_column_deterministic _ _ _ _ Hred Hcol Hcol') in Hrun2.
    apply IH; [|done]. by apply (reduce_column_prefix_reduced j s).
Qed.

Lemma sweep_prefix_reduced n j s s' :
  j ≤ n → sweep n j s s' → prefix_reduced j s → prefix_reduced n s'.
Proof.
  intros Hjn Hrun. induction Hrun as [j s Hj|j s s' s'' Hj Hcol _ IH];
    intros Hred.
  - by assert (j = n) as -> by lia.
  - apply IH; [lia|]. by apply (reduce_column_prefix_reduced j s).
Qed.

(** Pivot uniqueness after reduction: no two columns of a reduced
    matrix hold the same pivot. *)
Lemma reduces_prefix_reduced w s s' n :
  reduces w s s' → result (getNumColumns w) s = Return n →
  prefix_reduced n s'.
Proof.
  intros (n' & Hn' & Hrun) Hn. assert (n' = n) as -> by congruence.
  apply (sweep_prefix_reduced n 0 s); [lia|done|].
  intros k1 k2 p Hk1. lia.
Qed.

(** C6.  Two runs of the left-to-right reduction on the same matrix,
    whichever earlier column with the matching pivot each of them picks
    in step (b), end in the same reduced matrix and emit the same list
    of persistence pairs. *)
Theorem reduction_deterministic (w : N) (s s1 s2 : Vector) :
  reduces w s s1 → reduces w s s2 →
  s1 = s2 ∧ result (pairing w) s1 = result (pairing w) s2.
Proof.
  intros (n1 & Hn1 & Hrun1) (n2 & Hn2 & Hrun2).
  assert (n2 = n1) as -> by congruence.
  assert (s1 = s2) as ->; [|done].
  apply (sweep_deterministic n1 0 s); [|done..].
  intros k1 k2 p Hk1. lia.
Qed.

(** *** The executable engine runs the relation *)

Lemma elem_of_earlier k j : k ∈ earlier j ↔ k < j.
Proof.
  unfold earlier. rewrite list_elem_of_fmap. split.
  - intros (i & -> & Hi). apply elem_of_seq in Hi. lia.
  - intros Hk. exists (N.to_nat k). split; [by rewrite N2Nat.id|].
    apply elem_of_seq. lia.
Qed.

Lemma find_pivot_Some ks p s k :
  find_pivot ks p s = Some k → k ∈ ks ∧ has_pivot k p s.
Proof.
  induction ks as [|k' ks IH]; simpl; [done|].
  destruct (result (getMaximumIndex k') s) as [[q [|]]|] eqn:Hq.
  - destruct (N.eqb_spec q p) as [->|Hne].
    + intros [= <-]. split; [by left|done].
    + intros [Hin Hk]%IH. split; [by right|done].
  - intros [Hin Hk]%IH. split; [by right|done].
  - intros [Hin Hk]%IH. split; [by right|done].
Qed.

Lemma find_pivot_None ks p s :
  find_pivot ks p s = None → ∀ k, k ∈ ks → ¬ has_pivot k p s.
Proof.
  induction ks as [|k' ks IH]; simpl; [by intros _ k ?%elem_of_nil|].
  unfold has_pivot in *.
  destruct (result (getMaximumIndex k') s) as [[q [|]]|] eqn:Hq.
  - destruct (N.eqb_spec q p) as [->|Hne]; [done|].
    intros Hnone k [->|Hin]%elem_of_cons; [congruence|by apply IH].
  - intros Hnone k [->|Hin]%elem_of_cons; [congruence|by apply IH].
  - intros Hnone k [->|Hin]%elem_of_cons; [congruence|by apply IH].
Qed.

Section search.
Variable order : list Index → list Index.
Hypothesis order_Permutation : ∀ l, order l ≡ₚ l.

Lemma elem_of_order_earlier k j : k ∈ order (earlier j) ↔ k < j.
Proof. by rewrite order_Permutation, elem_of_earlier. Qed.

Lemma reduce_column_search_sound fuel j s s' :
  reduce_column_search order fuel j s = Some s' → reduce_column j s s'.
Proof.
  revert s. induction fuel as [|fuel IH]; intros s; simpl; [done|].
  destruct (result (getMaximumIndex j) s) as [[p [|]]|] eqn:Hp; [| |done].
  - destruct (find_pivot (order (earlier j)) p s) as [k|] eqn:Hfind.
    + apply find_pivot_Some in Hfind as [Hk Hkp].
      apply elem_of_order_earlier in Hk.
      intros Hrun%IH. by apply (reduce_column_add j s p k).
    + intros [= <-]. apply (reduce_column_done j s p); [done|].
      intros k Hk. apply (find_pivot_None _ _ _ Hfind).
      by apply elem_of_order_earlier.
  - intros [= <-]. by apply (reduce_column_zero j s p).
Qed.

Lemma sweep_search_sound fuel n len j s s' :
  N.to_nat n = (N.to_nat j + len)%nat →
  sweep_search order fuel (N.of_nat <$> seq (N.to_nat j) len) s = Some s' →
  sweep n j s s'.
Proof.
  revert j s. induction len as [|len IH]; intros j s Hn; simpl.
  - intros [= <-]. apply sweep_end. lia.
  - rewrite N2Nat.id.
    destruct (reduce_column_search order fuel j s) as [t|] eqn:Hcol; [|done].
    intros Hrun. apply (sweep_next n j s t); [lia| |].
    + by apply (reduce_column_search_sound fuel).
    + apply IH; [lia|].
      by replace (N.to_nat (j + 1)) with (S (N.to_nat j)) by lia.
Qed.

Lemma reduce_search_sound w fuel s s' :
  reduce_search w order fuel s = Some s' → reduces w s s'.
Proof.
  unfold reduce_search.
  destruct (result (getNumColumns w) s) as [n|] eqn:Hn; [|done].
  intros Hrun. exists n. split; [done|].
  apply (sweep_search_sound fuel n (N.to_nat n)); [simpl; lia|done].
Qed.
End search.

Lemma reduction_deterministic_witness :
  reduces 32 triangle_store triangle_reduced ∧
  triangle_reduced = triangle_reduced ∧
  result (pairing 32) triangle_reduced = result (pairing 32) triangle_reduced.
Proof.
  split.
  - apply (reduce_search_sound id (λ l, reflexivity l) 32 10). reflexivity.
  - apply (reduction_deterministic 32 triangle_store).
    + apply (reduce_search_sound id (λ l, reflexivity l) 32 10). reflexivity.
    + apply (reduce_search_sound reverse reverse_Permutation 32 10).
      reflexivity.
Defined.

(** The pairs of the triangle: two edges kill a component each, the
    face kills the cycle. *)
Example triangle_pairs :
  result (pairing 32) triangle_reduced =
    Return [mkPair 1 3 0; mkPair 2 4 0; mkPair 5 6 1].
Proof. reflexivity. Qed.

(** *** The reduction terminates on well-formed matrices *)

(** Eliminating a shared pivot leaves only smaller row indices. *)
Lemma set_symmetric_difference_below A B z :
  strictly_ascending A → strictly_ascending B →
  A ≠ [] → B ≠ [] → back A = back B →
  z ∈ set_symmetric_difference A B → z < back B.
Proof.
  intros HA HB HneA HneB Hback Hz.
  destruct (back_is_maximum A) as [HinA HmaxA];
    [by apply strictly_ascending_ascending|done|].
  destruct (back_is_maximum B) as [HinB HmaxB];
    [by apply strictly_ascending_ascending|done|].
  apply (set_symmetric_difference_spec A B HA HB) in Hz.
  rewrite Hback in HinA, HmaxA.
  destruct Hz as [[Hz Hn]|[Hn Hz]].
  - specialize (HmaxA _ Hz). assert (z ≠ back B) by (by intros ->). lia.
  - specialize (HmaxB _ Hz). assert (z ≠ back B) by (by intros ->). lia.
Qed.

Lemma addColumns_columns_strict k j s :
  columns_strict s → columns_strict (exec (addColumns k j) s).
Proof.
  intros Hstrict c col.
  destruct (decide (c = j)) as [->|Hne].
  2: { rewrite addColumns_column_of_ne by done. apply Hstrict. }
  unfold exec, addColumns.
  destruct (column_of s k) as [A|] eqn:HA.
  2: { erewrite bind_out_of_range by by apply data_at_None. apply Hstrict. }
  erewrite bind_Return by by apply data_at_Some.
  destruct (column_of s j) as [B|] eqn:HB.
  2: { erewrite bind_out_of_range by by apply data_at_None. apply Hstrict. }
  erewrite bind_Return by by apply data_at_Some.
  change (column_of (exec (data_store j (set_symmetric_difference A B)) s) j
          = Some col → strictly_ascending col).
  rewrite column_of_data_store_eq.
  2: { apply in_range_column_of. by eexists. }
  intros [= <-].
  apply set_symmetric_difference_spec; by eapply Hstrict.
Qed.

Lemma addColumns_height k j p s :
  columns_strict s → k ≠ j → has_pivot j p s → has_pivot k p s →
  height j (exec (addColumns k j) s) < height j s.
Proof.
  intros Hstrict Hne (B & HB & HneB & HbackB)%has_pivot_column_of
    (A & HA & HneA & HbackA)%has_pivot_column_of.
  unfold height, exec. rewrite (addColumns_in_range _ _ _ _ _ HA HB). simpl.
  rewrite HB, (bool_decide_eq_false_2 _ HneB).
  unfold column_of. simpl. rewrite list_lookup_insert_eq.
  2: { by eapply lookup_lt_Some. }
  case_bool_decide as Hnil; [lia|].
  assert (strictly_ascending (set_symmetric_difference A B)) as HC.
  { apply set_symmetric_difference_spec; by eapply Hstrict. }
  destruct (back_is_maximum _ (strictly_ascending_ascending _ HC) Hnil)
    as [Hin _].
  apply set_symmetric_difference_below in Hin;
    [lia|by eapply Hstrict..|done|done|congruence].
Qed.

Lemma addColumns_in_range_iff k j c s :
  in_range c (exec (addColumns k j) s) ↔ in_range c s.
Proof.
  unfold in_range. by destruct (addColumns_sizes k j s) as [-> _].
Qed.

Lemma reduce_column_total j s :
  columns_strict s → in_range j s →
  ∃ s', reduce_column j s s' ∧ columns_strict s' ∧
    length (_data s') = length (_data s).
Proof.
  intros Hstrict Hin.
  remember (N.to_nat (height j s)) as h eqn:Hh.
  revert s Hstrict Hin Hh.
  induction h as [h IH] using lt_wf_ind. intros s Hstrict Hin ->.
  destruct (result (getMaximumIndex j) s) as [[p [|]]|] eqn:Hp.
  - destruct (find_pivot (earlier j) p s) as [k|] eqn:Hfind.
    + apply find_pivot_Some in Hfind as [Hk%elem_of_earlier Hkp].
      destruct (IH (N.to_nat (height j (exec (addColumns k j) s))))
        with (s := exec (addColumns k j) s) as (s' & Hrun & Hs' & Hlen).
      * pose proof (addColumns_height k j p s Hstrict ltac:(lia) Hp Hkp).
        lia.
      * by apply addColumns_columns_strict.
      * by apply addColumns_in_range_iff.
      * done.
      * exists s'. split; [by apply (reduce_column_add j s p k)|].
        split; [done|]. rewrite Hlen.
        by destruct (addColumns_sizes k j s) as [-> _].
    + exists s. split; [|done].
      apply (reduce_column_done j s p); [done|].
      intros k Hk. apply (find_pivot_None _ _ _ Hfind).
      by apply elem_of_earlier.
  - exists s. split; [|done]. by apply (reduce_column_zero j s p).
  - apply in_range_column_of in Hin as [c Hc].
    rewrite result_getMaximumIndex, Hc in Hp. by case_bool_decide.
Qed.

Lemma sweep_total n len j s :
  N.to_nat n = (N.to_nat j + len)%nat →
  columns_strict s → length (_data s) = N.to_nat n →
  ∃ s', sweep n j s s'.
Proof.
  revert j s. induction len as [|len IH]; intros j s Hn Hstrict Hlen.
  - exists s. apply sweep_end. lia.
  - destruct (reduce_column_total j s) as (t & Hcol & Ht & Hlent);
      [done|unfold in_range; lia|].
    destruct (IH (j + 1) t) as [s' Hrun]; [lia|done|lia|].
    exists s'. apply (sweep_next n j s t); [lia|done|done].
Qed.

(** On an object that satisfies the class invariant and whose columns
    are all sorted ascending and free of duplicates, the reduction has a
    run. *)
Lemma reduces_total w s :
  wf w s → columns_strict s → ∃ s', reduces w s s'.
Proof.
  intros Hwf Hstrict.
  destruct (sweep_total (N.of_nat (length (_data s)))
              (length (_data s)) 0 s) as [s' Hrun]; [lia|done|lia|].
  exists s', (N.of_nat (length (_data s))). split; [|done].
  unfold result. by rewrite (wf_getNumColumns _ _ Hwf).
Qed.

(** ** Sortedness is an invariant of the store *)

Lemma ascending_cons x c :
  ascending c → Forall (N.le x) c → ascending (x :: c).
Proof.
  intros Hc Hx. constructor; [done|].
  destruct Hx; by constructor.
Qed.

(** The merge loop keeps ascending order, also when indices repeat. *)
Lemma set_symmetric_difference_ascending l1 l2 :
  ascending l1 → ascending l2 →
  ascending (set_symmetric_difference l1 l2).
Proof.
  revert l1 l2.
  refine (set_symmetric_difference_ind _ _ _ _ _ _); cbv beta.
  - done.
  - intros l1 H1 _. by rewrite set_symmetric_difference_nil_r.
  - intros x t1 y t2 Hxy IH H1 H2. rewrite set_symmetric_difference_cons.
    rewrite (proj2 (N.ltb_lt _ _) Hxy).
    pose proof H1 as [Ht1 Hx1]%ascending_inv.
    pose proof H2 as [Ht2 Hy2]%ascending_inv.
    apply ascending_cons; [by apply IH|].
    rewrite Forall_forall in Hx1, Hy2 |- *. intros z Hz.
    apply set_symmetric_difference_subset in Hz as [Hz|Hz]; [by apply Hx1|].
    apply elem_of_cons in Hz as [->|Hz]; [lia|].
    specialize (Hy2 _ Hz). lia.
  - intros x t1 y t2 Hxy IH H1 H2. rewrite set_symmetric_difference_cons.
    rewrite (proj2 (N.ltb_ge _ _)) by lia.
    rewrite (proj2 (N.ltb_lt _ _) Hxy).
    pose proof H1 as [Ht1 Hx1]%ascending_inv.
    pose proof H2 as [Ht2 Hy2]%ascending_inv.
    apply ascending_cons; [by apply IH|].
    rewrite Forall_forall in Hx1, Hy2 |- *. intros z Hz.
    apply set_symmetric_difference_subset in Hz as [Hz|Hz]; [|by apply Hy2].
    apply elem_of_cons in Hz as [->|Hz]; [lia|].
    specialize (Hx1 _ Hz). lia.
  - intros x t1 t2 IH H1 H2. rewrite set_symmetric_difference_cons.
    rewrite N.ltb_irrefl.
    apply ascending_inv in H1 as [Ht1 _].
    apply ascending_inv in H2 as [Ht2 _]. by apply IH.
Qed.

Lemma lookup_insert_cases {A} (l : list A) i j x y :
  <[i:=x]> l !! j = Some y → y = x ∨ l !! j = Some y.
Proof.
  destruct (decide (i = j)) as [->|Hne].
  - destruct (decide (j < length l)%nat).
    + rewrite list_lookup_insert_eq by done. intros [= <-]. by left.
    + rewrite list_insert_ge by lia. by right.
  - rewrite list_lookup_insert_ne by done. by right.
Qed.

(** Every column of every object a program can hold is sorted
    ascending: [setColumn] sorts, [addColumns] merges, and the other
    calls only keep or empty columns. *)
Lemma reachable_ascending w s :
  reachable w s → ∀ c col, column_of s c = Some col → ascending col.
Proof.
  induction 1 as [|call s Htyped Hreach IH]; intros c col.
  { unfold column_of. simpl. by rewrite lookup_nil. }
  pose proof (reachable_wf _ _ Hreach) as Hwf.
  destruct call as [n|source target|column input|column|b]; simpl.
  - unfold column_of, exec, setNumColumns. simpl.
    destruct (decide (N.to_nat c < N.to_nat n)%nat) as [Hc|Hc].
    + destruct (decide (N.to_nat c < length (_data s))%nat).
      * rewrite lookup_resize by done. apply IH.
      * rewrite lookup_resize_new by lia. intros [= <-]. constructor.
    + by rewrite lookup_resize_old by lia.
  - destruct (decide (c = target)) as [->|Hne].
    2: { rewrite addColumns_column_of_ne by done. apply IH. }
    destruct (column_of s source) as [A|] eqn:HA.
    2: { unfold exec, addColumns.
         erewrite bind_out_of_range by by apply data_at_None. apply IH. }
    destruct (column_of s target) as [B|] eqn:HB.
    2: { unfold exec, addColumns.
         erewrite bind_Return by by apply data_at_Some.
         erewrite bind_out_of_range by by apply data_at_None. apply IH. }
    unfold exec. rewrite (addColumns_in_range _ _ _ _ _ HA HB).
    unfold column_of. simpl.
    intros [->|Hcol]%lookup_insert_cases; [|by eapply IH].
    apply set_symmetric_difference_ascending; by eapply IH.
  - destruct (decide (in_range column s)) as [Hin|Hout].
    + unfold exec. rewrite setColumn_in_range by done.
      unfold column_of. simpl.
      intros [->|Hcol]%lookup_insert_cases; [|by eapply IH].
      apply sort_ascending.
    + unfold exec, setColumn.
      rewrite data_at_out_of_range by done. apply IH.
  - destruct (decide (in_range column s)) as [Hin|Hout].
    + pose proof Hin as [c0 Hc0]%in_range_column_of.
      unfold exec, clearColumn.
      erewrite bind_Return by by apply data_at_Some.
      unfold column_of, data_store. simpl.
      intros [->|Hcol]%lookup_insert_cases; [constructor|by eapply IH].
    + unfold exec, clearColumn.
      rewrite data_at_out_of_range by done. apply IH.
  - apply IH.
Qed.

(** * Further properties of the column store *)

(** ** [std::set_symmetric_difference], for arbitrary ranges *)

Lemma set_symmetric_difference_diag l : set_symmetric_difference l l = [].
Proof.
  induction l as [|x l IH]; [done|].
  by rewrite set_symmetric_difference_cons, N.ltb_irrefl.
Qed.

(** The merge loop does not care which range comes first. *)
Lemma set_symmetric_difference_comm l1 l2 :
  set_symmetric_difference l1 l2 = set_symmetric_difference l2 l1.
Proof.
  revert l1 l2.
  refine (set_symmetric_difference_ind _ _ _ _ _ _); cbv beta.
  - intros l2. by rewrite set_symmetric_difference_nil_r.
  - intros l1. by rewrite set_symmetric_difference_nil_r.
  - intros x t1 y t2 Hxy IH. rewrite !set_symmetric_difference_cons.
    rewrite (proj2 (N.ltb_lt x y) Hxy), (proj2 (N.ltb_ge y x)) by lia.
    f_equal. exact IH.
  - intros x t1 y t2 Hxy IH. rewrite !set_symmetric_difference_cons.
    rewrite (proj2 (N.ltb_lt y x) Hxy), (proj2 (N.ltb_ge x y)) by lia.
    f_equal. exact IH.
  - intros x t1 t2 IH. rewrite !set_symmetric_difference_cons.
    by rewrite N.ltb_irrefl.
Qed.

(** Every step of the loop either copies one element or drops a pair. *)
Lemma set_symmetric_difference_length l1 l2 :
  ∃ k, (length (set_symmetric_difference l1 l2) + 2 * k
        = length l1 + length l2)%nat.
Proof.
  revert l1 l2.
  refine (set_symmetric_difference_ind _ _ _ _ _ _); cbv beta.
  - intros l2. exists 0%nat. simpl. lia.
  - intros l1. exists 0%nat. rewrite set_symmetric_difference_nil_r.
    simpl. lia.
  - intros x t1 y t2 Hxy [k Hk]. rewrite set_symmetric_difference_cons.
    rewrite (proj2 (N.ltb_lt _ _) Hxy). exists k.
    unfold Index in *. cbn [length] in *. lia.
  - intros x t1 y t2 Hxy [k Hk]. rewrite set_symmetric_difference_cons.
    rewrite (proj2 (N.ltb_ge _ _)) by lia.
    rewrite (proj2 (N.ltb_lt _ _) Hxy). exists k.
    unfold Index in *. cbn [length] in *. lia.
  - intros x t1 t2 [k Hk]. rewrite set_symmetric_difference_cons.
    rewrite N.ltb_irrefl. exists (S k).
    unfold Index in *. cbn [length] in *. lia.
Qed.

(** On strictly ascending columns, adding two columns to a third gives
    the same result in either order. *)
Lemma set_symmetric_difference_swap A B T :
  strictly_ascending A → strictly_ascending B → strictly_ascending T →
  set_symmetric_difference B (set_symmetric_difference A T)
  = set_symmetric_difference A (set_symmetric_difference B T).
Proof.
  intros HA HB HT.
  destruct (set_symmetric_difference_spec A T HA HT) as [HsAT HzAT].
  destruct (set_symmetric_difference_spec B T HB HT) as [HsBT HzBT].
  destruct (set_symmetric_difference_spec B _ HB HsAT) as [Hs1 Hz1].
  destruct (set_symmetric_difference_spec A _ HA HsBT) as [Hs2 Hz2].
  apply strictly_ascending_ext; [done..|].
  intros z. rewrite Hz1, Hz2, HzAT, HzBT.
  destruct (decide (z ∈ A)), (decide (z ∈ B)), (decide (z ∈ T)); tauto.
Qed.

(** ** [setColumn], case by case *)

(** The three ways [setColumn] can end: the column does not exist; the
    column exists but its dimension tag does not (which the class
    invariant excludes); both exist. *)
Lemma setColumn_cases w column input s :
  setColumn w column input s =
    match column_of s column with
    | None => (out_of_range, s)
    | Some _ =>
        match dimension_of s column with
        | None =>
            (out_of_range,
             {| _data :=
                  <[N.to_nat column := sort (to_Index w <$> input)]>
                    (_data s);
                _dimensions := _dimensions s;
                _isDualized := _isDualized s |})
        | Some _ =>
            (Return (),
             {| _data :=
                  <[N.to_nat column := sort (to_Index w <$> input)]>
                    (_data s);
                _dimensions :=
                  <[N.to_nat column := derived_dimension w input]>
                    (_dimensions s);
                _isDualized := _isDualized s |})
        end
    end.
Proof.
  destruct (column_of s column) as [c|] eqn:Hc.
  2: { apply data_at_out_of_range. by apply out_of_range_column_of. }
  assert (in_range column s) as Hin.
  { apply in_range_column_of. by eexists. }
  unfold setColumn.
  erewrite bind_Return by by apply data_at_Some.
  erewrite bind_Return by reflexivity.
  erewrite bind_Return.
  2: { apply data_at_Some. by apply list_lookup_insert_eq. }
  erewrite bind_Return.
  2: { apply data_at_Some. by apply list_lookup_insert_eq. }
  erewrite bind_Return by reflexivity.
  unfold data_store. simpl. rewrite list_insert_insert_eq.
  destruct (dimension_of s column) as [d|] eqn:Hd.
  - by erewrite bind_Return by by apply dimensions_at_Some.
  - by erewrite bind_out_of_range by by apply dimensions_at_None.
Qed.

Lemma sort_Permutation_eq input1 input2 :
  input1 ≡ₚ input2 → sort input1 = sort input2.
Proof.
  intros Hperm. apply sort_unique; [apply sort_ascending|].
  by rewrite sort_Permutation.
Qed.

Lemma derived_dimension_Permutation w input1 input2 :
  input1 ≡ₚ input2 → derived_dimension w input1 = derived_dimension w input2.
Proof.
  intros Hperm. pose proof (Permutation_length Hperm) as Hlen.
  destruct input1, input2; simpl in *; try done. by rewrite Hlen.
Qed.

Lemma in_range_Some column s c :
  column_of s column = Some c → in_range column s.
Proof. intros Hc. apply in_range_column_of. by eexists. Qed.

Lemma exec_addColumns_column source target s A B :
  column_of s source = Some A → column_of s target = Some B →
  column_of (exec (addColumns source target) s) target
  = Some (set_symmetric_difference A B).
Proof.
  intros HA HB. unfold exec. rewrite (addColumns_in_range _ _ _ _ _ HA HB).
  apply (column_of_data_store_eq target _ s). by eapply in_range_Some.
Qed.

(** ** What [setColumn] leaves alone *)

(** X1.  On an in-range column of an object a program can hold,
    [setColumn] returns normally and touches nothing but the addressed
    column and its dimension tag: every other column, every other tag,
    the flag and the column count are as before. *)
Theorem setColumn_frame (w : N) (column : Index) (input : list Index)
    (s : Vector) :
  reachable w s → in_range column s →
  ∃ s', setColumn w column input s = (Return (), s') ∧
    (∀ other, other ≠ column →
       column_of s' other = column_of s other ∧
       dimension_of s' other = dimension_of s other) ∧
    _isDualized s' = _isDualized s ∧
    result (getNumColumns w) s' = result (getNumColumns w) s.
Proof.
  intros Hwf%reachable_wf Hin. eexists.
  split; [by apply setColumn_in_range|].
  unfold column_of, dimension_of, result, getNumColumns. simpl.
  split; [|by rewrite length_insert].
  intros other Hne.
  assert (N.to_nat column ≠ N.to_nat other) by (by intros ?%N2Nat.inj).
  by rewrite !list_lookup_insert_ne.
Qed.

Lemma setColumn_frame_witness :
  ∃ s', setColumn 32 2 [1; 0] edge_store = (Return (), s') ∧
    (∀ other, other ≠ 2 →
       column_of s' other = column_of edge_store other ∧
       dimension_of s' other = dimension_of edge_store other) ∧
    _isDualized s' = _isDualized edge_store ∧
    result (getNumColumns 32) s' = result (getNumColumns 32) edge_store.
Proof.
  apply (setColumn_frame 32 2 [1; 0] edge_store).
  - apply edge_store_reachable.
  - unfold in_range. simpl. lia.
Defined.

(** X2.  [setColumn] does not depend on the order of its input: two
    inputs that are rearrangements of one another give the same outcome
    and the same object, whatever the object and the column index. *)
Theorem setColumn_Permutation (w : N) (column : Index)
    (input1 input2 : list Index) (s : Vector) :
  input1 ≡ₚ input2 →
  setColumn w column input1 s = setColumn w column input2 s.
Proof.
  intros Hperm. rewrite !setColumn_cases.
  by rewrite (sort_Permutation_eq _ _ (fmap_Permutation (to_Index w) _ _ Hperm)),
    (derived_dimension_Permutation w _ _ Hperm).
Qed.

Lemma setColumn_Permutation_witness :
  setColumn 32 2 [1; 0; 2] edge_store = setColumn 32 2 [2; 1; 0] edge_store.
Proof.
  apply (setColumn_Permutation 32 2 [1; 0; 2] [2; 1; 0] edge_store).
  apply (Permutation_trans (l' := [1; 2; 0])).
  - apply perm_skip, perm_swap.
  - apply (Permutation_trans (l' := [2; 1; 0])); [apply perm_swap|done].
Defined.

(** X3.  The pivot of a column that was just assigned from a non-empty
    input of index values is the largest index of that input, whatever
    the order of the input; after an empty input there is no pivot. *)
Theorem setColumn_getMaximumIndex (w : N) (column : Index)
    (input : list Index) (s : Vector) :
  reachable w s → in_range column s → Forall (is_Index w) input →
  ∃ p b, result (getMaximumIndex column) (exec (setColumn w column input) s)
         = Return (p, b) ∧
    (input = [] → b = false) ∧
    (input ≠ [] → b = true ∧ is_maximum p input).
Proof.
  intros Hwf%reachable_wf Hin Htyped.
  unfold exec. rewrite setColumn_in_range by done.
  rewrite result_getMaximumIndex. unfold column_of. simpl.
  rewrite list_lookup_insert_eq by done.
  rewrite (to_Index_typed _ _ Htyped).
  case_bool_decide as Hnil.
  - exists 0, false. split; [done|]. split; [done|].
    intros Hne. destruct input as [|x input]; [done|].
    pose proof (Permutation_length (sort_Permutation (x :: input))) as Hlen.
    by rewrite Hnil in Hlen.
  - exists (back (sort input)), true. split; [done|]. split.
    + intros ->. done.
    + intros _. split; [done|].
      destruct (back_is_maximum (sort input) (sort_ascending input) Hnil)
        as [Hin' Hmax].
      split.
      * apply list_elem_of_In.
        apply (Permutation_in _ (sort_Permutation input)).
        by apply list_elem_of_In.
      * intros x Hx. apply Hmax. apply list_elem_of_In.
        apply (Permutation_in _ (Permutation_sym (sort_Permutation input))).
        by apply list_elem_of_In.
Qed.

Lemma setColumn_getMaximumIndex_witness :
  ∃ p b, result (getMaximumIndex 2) (exec (setColumn 32 2 [1; 0]) edge_store)
         = Return (p, b) ∧
    ([1; 0] = [] → b = false) ∧
    ([1; 0] ≠ [] → b = true ∧ is_maximum p [1; 0]).
Proof.
  apply (setColumn_getMaximumIndex 32 2 [1; 0] edge_store).
  - apply edge_store_reachable.
  - unfold in_range. simpl. lia.
  - repeat constructor; unfold is_Index; by vm_compute.
Defined.

(** ** Column addition as arithmetic *)

(** X4.  Adding a column to itself is clearing it: [addColumns c c] and
    [clearColumn c] have the same outcome and leave the same object, for
    every column content and also when [c] is out of range. *)
Theorem addColumns_self_clears (c : Index) (s : Vector) :
  addColumns c c s = clearColumn c s.
Proof.
  unfold addColumns, clearColumn.
  destruct (column_of s c) as [A|] eqn:HA.
  - do 3 erewrite bind_Return by by apply data_at_Some.
    by rewrite set_symmetric_difference_diag.
  - by rewrite !data_at_out_of_range by by apply out_of_range_column_of.
Qed.

(** X5.  The empty column is neutral for [addColumns], for every column
    content: adding an empty source leaves the whole object as it was,
    and adding a source to an empty target copies the source. *)
Theorem addColumns_zero_column (source target : Index) (s : Vector)
    (A B : list Index) :
  column_of s source = Some A → column_of s target = Some B →
  (A = [] → addColumns source target s = (Return (), s)) ∧
  (B = [] →
   column_of (exec (addColumns source target) s) target = Some A).
Proof.
  intros HA HB. split.
  - intros ->. rewrite (addColumns_in_range _ _ _ _ _ HA HB). simpl.
    unfold column_of in HB. rewrite list_insert_id by done. by destruct s.
  - intros ->. rewrite (exec_addColumns_column _ _ _ _ _ HA HB).
    by rewrite set_symmetric_difference_nil_r.
Qed.

Lemma addColumns_zero_column_witness :
  (@nil Index = [] → addColumns 0 2 edge_store = (Return (), edge_store)) ∧
  ([0 : Index; 1] = [] →
   column_of (exec (addColumns 0 2) edge_store) 2 = Some []).
Proof.
  apply (addColumns_zero_column 0 2 edge_store [] [0; 1]); reflexivity.
Defined.

(** X6.  Column addition is commutative, for every column content: what
    [addColumns a b] stores in column [b] is what [addColumns b a]
    stores in column [a]. *)
Theorem addColumns_commutative (a b : Index) (s : Vector)
    (A B : list Index) :
  column_of s a = Some A → column_of s b = Some B →
  column_of (exec (addColumns a b) s) b
  = column_of (exec (addColumns b a) s) a.
Proof.
  intros HA HB.
  rewrite (exec_addColumns_column _ _ _ _ _ HA HB).
  rewrite (exec_addColumns_column _ _ _ _ _ HB HA).
  by rewrite set_symmetric_difference_comm.
Qed.

Lemma addColumns_commutative_witness :
  column_of (exec (addColumns 3 4) triangle_store) 4
  = column_of (exec (addColumns 4 3) triangle_store) 3.
Proof.
  apply (addColumns_commutative 3 4 triangle_store [0; 1] [0; 2]);
    reflexivity.
Defined.

(** X7.  The column that [addColumns] stores is never longer than the
    two columns together (the capacity it reserves always suffices), and
    its length differs from their total length by an even number: each
    index the two columns share is dropped from both. *)
Theorem addColumns_length (source target : Index) (s : Vector)
    (A B : list Index) :
  column_of s source = Some A → column_of s target = Some B →
  ∃ C k, column_of (exec (addColumns source target) s) target = Some C ∧
    (length C + 2 * k = length A + length B)%nat.
Proof.
  intros HA HB. destruct (set_symmetric_difference_length A B) as [k Hk].
  exists (set_symmetric_difference A B), k.
  split; [by apply exec_addColumns_column|done].
Qed.

Lemma addColumns_length_witness :
  ∃ C k, column_of (exec (addColumns 3 4) triangle_store) 4 = Some C ∧
    (length C + 2 * k = 4)%nat.
Proof.
  apply (addColumns_length 3 4 triangle_store [0; 1] [0; 2]); reflexivity.
Defined.

(** X8.  On columns that are sorted ascending and free of duplicates,
    adding two columns [a] and [b] to a third column [t] gives the same
    object in either order. *)
Theorem addColumns_order_independent (a b t : Index) (s : Vector)
    (A B T : list Index) :
  a ≠ t → b ≠ t →
  column_of s a = Some A → column_of s b = Some B →
  column_of s t = Some T →
  ascending A → NoDup A → ascending B → NoDup B →
  ascending T → NoDup T →
  exec (addColumns b t) (exec (addColumns a t) s)
  = exec (addColumns a t) (exec (addColumns b t) s).
Proof.
  intros Hat Hbt HA HB HT HascA HndA HascB HndB HascT HndT.
  pose proof (ascending_NoDup_strictly _ HascA HndA) as HsA.
  pose proof (ascending_NoDup_strictly _ HascB HndB) as HsB.
  pose proof (ascending_NoDup_strictly _ HascT HndT) as HsT.
  assert (∀ x y X Y, x ≠ t → y ≠ t →
            column_of s x = Some X → column_of s y = Some Y →
            exec (addColumns y t) (exec (addColumns x t) s)
            = {| _data :=
                   <[N.to_nat t := set_symmetric_difference Y
                                     (set_symmetric_difference X T)]>
                     (_data s);
                 _dimensions := _dimensions s;
                 _isDualized := _isDualized s |}) as Htwice.
  { intros x y X Y Hxt Hyt HX HY.
    pose proof (exec_addColumns_column _ _ _ _ _ HX HT) as HT1.
    assert (column_of (exec (addColumns x t) s) y = Some Y) as HY1.
    { by rewrite addColumns_column_of_ne. }
    unfold exec at 1. rewrite (addColumns_in_range _ _ _ _ _ HY1 HT1).
    unfold exec. rewrite (addColumns_in_range _ _ _ _ _ HX HT). simpl.
    by rewrite list_insert_insert_eq. }
  rewrite (Htwice a b A B), (Htwice b a B A) by done.
  by rewrite (set_symmetric_difference_swap A B T).
Qed.

Lemma addColumns_order_independent_witness :
  exec (addColumns 4 5) (exec (addColumns 3 5) triangle_store)
  = exec (addColumns 3 5) (exec (addColumns 4 5) triangle_store).
Proof.
  apply (addColumns_order_independent 3 4 5 triangle_store
           [0; 1] [0; 2] [1; 2]); try discriminate; try reflexivity;
    try (unfold ascending; repeat constructor; vm_compute; discriminate);
    by apply (bool_decide_unpack _).
Defined.

(** X9.  On columns that are sorted ascending and free of duplicates,
    adding a source with the same pivot [p] as the target eliminates the
    pivot: afterwards the target is empty or its pivot is below [p]. *)
Theorem addColumns_lowers_pivot (source target p : Index) (s : Vector)
    (A B : list Index) :
  column_of s source = Some A → column_of s target = Some B →
  ascending A → NoDup A → ascending B → NoDup B →
  result (getMaximumIndex source) s = Return (p, true) →
  result (getMaximumIndex target) s = Return (p, true) →
  ∃ q b, result (getMaximumIndex target) (exec (addColumns source target) s)
         = Return (q, b) ∧
    (b = true → q < p).
Proof.
  intros HA HB HascA HndA HascB HndB Hps Hpt.
  pose proof (ascending_NoDup_strictly _ HascA HndA) as HsA.
  pose proof (ascending_NoDup_strictly _ HascB HndB) as HsB.
  rewrite result_getMaximumIndex, HA in Hps.
  rewrite result_getMaximumIndex, HB in Hpt.
  case_bool_decide as HneA; [done|]. case_bool_decide as HneB; [done|].
  injection Hps as HbackA. injection Hpt as HbackB.
  rewrite result_getMaximumIndex, (exec_addColumns_column _ _ _ _ _ HA HB).
  case_bool_decide as Hnil.
  - by exists 0, false.
  - exists (back (set_symmetric_difference A B)), true.
    split; [done|]. intros _. rewrite <- HbackB.
    apply (set_symmetric_difference_below A B); [done..|congruence|].
    apply back_is_maximum; [|done].
    apply strictly_ascending_ascending.
    by apply set_symmetric_difference_spec.
Qed.

Lemma addColumns_lowers_pivot_witness :
  ∃ q b, result (getMaximumIndex 5) (exec (addColumns 4 5) triangle_store)
         = Return (q, b) ∧
    (b = true → q < 2).
Proof.
  apply (addColumns_lowers_pivot 4 5 2 triangle_store [0; 2] [1; 2]);
    try reflexivity;
    try (unfold ascending; repeat constructor; vm_compute; discriminate);
    by apply (bool_decide_unpack _).
Defined.

(** ** Invariants of the objects a program can hold *)

(** X10.  On every object a program can hold the two member vectors
    agree: [getNumColumns] returns a value [n] of the index type, and
    for every index [c] both [getColumn c] and [getDimension c] return
    normally when [c < n] and both throw otherwise. *)
Theorem reachable_sizes_agree (w : N) (s : Vector) :
  reachable w s →
  ∃ n, result (getNumColumns w) s = Return n ∧ is_Index w n ∧
    ∀ c, (c < n → (∃ col, result (getColumn c) s = Return col) ∧
                  (∃ d, result (getDimension c) s = Return d)) ∧
         (n ≤ c → result (getColumn c) s = out_of_range ∧
                  result (getDimension c) s = out_of_range).
Proof.
  intros Hwf%reachable_wf. exists (N.of_nat (length (_data s))).
  split; [unfold result; by rewrite (wf_getNumColumns _ _ Hwf)|].
  split; [by destruct Hwf|].
  intros c. rewrite result_getColumn, result_getDimension. split.
  - intros Hc. assert (in_range c s) as Hin by (unfold in_range; lia).
    destruct (wf_dimension_of _ _ _ Hwf Hin) as [d ->].
    apply in_range_column_of in Hin as [col ->]. eauto.
  - intros Hc. assert (¬ in_range c s) as Hout by (unfold in_range; lia).
    rewrite (wf_dimension_of_None _ _ _ Hwf Hout).
    apply out_of_range_column_of in Hout as ->. done.
Qed.

Lemma reachable_sizes_agree_witness :
  ∃ n, result (getNumColumns 32) edge_store = Return n ∧ is_Index 32 n ∧
    ∀ c, (c < n → (∃ col, result (getColumn c) edge_store = Return col) ∧
                  (∃ d, result (getDimension c) edge_store = Return d)) ∧
         (n ≤ c → result (getColumn c) edge_store = out_of_range ∧
                  result (getDimension c) edge_store = out_of_range).
Proof.
  apply (reachable_sizes_agree 32 edge_store), edge_store_reachable.
Defined.

(** X11.  Every column of every object a program can hold is sorted
    ascending, so [getMaximumIndex] always answers with the true
    maximum: on an in-range column it returns [(0, false)] when the
    column is empty and [(p, true)] with [p] the largest stored index
    otherwise. *)
Theorem reachable_getMaximumIndex (w : N) (column : Index) (s : Vector)
    (c : list Index) :
  reachable w s → column_of s column = Some c →
  ascending c ∧
  ∃ p b, getMaximumIndex column s = (Return (p, b), s) ∧
    (c = [] → p = 0 ∧ b = false) ∧
    (c ≠ [] → b = true ∧ is_maximum p c).
Proof.
  intros Hreach Hc.
  pose proof (reachable_ascending _ _ Hreach _ _ Hc) as Hasc.
  split; [done|]. unfold getMaximumIndex.
  erewrite bind_Return by by apply data_at_Some.
  case_bool_decide as Hnil.
  - exists 0, false. by repeat split.
  - exists (back c), true.
    erewrite bind_Return by by apply data_at_Some.
    split; [done|]. split; [done|]. intros _. split; [done|].
    by apply back_is_maximum.
Qed.

Lemma reachable_getMaximumIndex_witness :
  ascending [0; 1] ∧
  ∃ p b, getMaximumIndex 2 edge_store = (Return (p, b), edge_store) ∧
    ([0 : Index; 1] = [] → p = 0 ∧ b = false) ∧
    ([0 : Index; 1] ≠ [] → b = true ∧ is_maximum p [0; 1]).
Proof.
  apply (reachable_getMaximumIndex 32 2 edge_store [0; 1]).
  - apply edge_store_reachable.
  - reflexivity.
Defined.

(** X12.  Duplicates enter a column only through the input of
    [setColumn]: if every column is sorted ascending and free of
    duplicates, it stays so after any call with arguments of the index
    type whose [setColumn] input, if it is one, is free of duplicates.
    In particular [addColumns], [clearColumn] and [setNumColumns] never
    create a duplicate. *)
Theorem run_keeps_duplicate_free (w : N) (c : call) (s : Vector) :
  wf w s → columns_strict s → call_typed w c →
  (∀ column input, c = call_setColumn column input → NoDup input) →
  columns_strict (run w c s).
Proof.
  intros Hwf Hstrict Htyped Hinput.
  destruct c as [n|source target|column input|column|b]; simpl.
  - intros c col. unfold column_of, exec, setNumColumns. simpl.
    destruct (decide (N.to_nat c < N.to_nat n)%nat) as [Hc|Hc].
    + destruct (decide (N.to_nat c < length (_data s))%nat).
      * rewrite lookup_resize by done. apply Hstrict.
      * rewrite lookup_resize_new by lia. intros [= <-]. constructor.
    + by rewrite lookup_resize_old by lia.
  - by apply addColumns_columns_strict.
  - intros c col. unfold exec. rewrite setColumn_cases.
    destruct (column_of s column) as [c0|] eqn:Hc0; [|apply Hstrict].
    destruct Htyped as [_ Htyped]. rewrite (to_Index_typed _ _ Htyped).
    assert (strictly_ascending (sort input)) as Hsorted.
    { apply ascending_NoDup_strictly; [apply sort_ascending|].
      rewrite sort_Permutation. by eapply Hinput. }
    destruct (dimension_of s column); unfold column_of; simpl;
      (intros [->|Hcol]%lookup_insert_cases; [done|by eapply Hstrict]).
  - intros c col. unfold exec, clearColumn.
    destruct (column_of s column) as [c0|] eqn:Hc0.
    + erewrite bind_Return by by apply data_at_Some.
      unfold column_of, data_store. simpl.
      intros [->|Hcol]%lookup_insert_cases; [constructor|by eapply Hstrict].
    + rewrite data_at_out_of_range by by apply out_of_range_column_of.
      apply Hstrict.
  - apply Hstrict.
Qed.

Lemma triangle_reduced_strict : columns_strict triangle_reduced.
Proof.
  intros c col. unfold column_of. simpl.
  destruct (N.to_nat c) as [|[|[|[|[|[|[|i]]]]]]]; simpl;
    intros [= <-]; repeat constructor; by vm_compute.
Qed.

Lemma run_keeps_duplicate_free_witness :
  wf 32 triangle_reduced ∧
  columns_strict (run 32 (call_addColumns 3 5) triangle_reduced).
Proof.
  assert (wf 32 triangle_reduced) as Hwf.
  { split; [reflexivity|]. unfold is_Index. by vm_compute. }
  split; [done|].
  apply (run_keeps_duplicate_free 32 (call_addColumns 3 5) triangle_reduced).
  - done.
  - apply triangle_reduced_strict.
  - unfold call_typed, is_Index. by vm_compute.
  - discriminate.
Defined.

(** Without the typing of the input the stored column can hold a
    duplicate although the input has none: two distinct values can
    convert to the same index. *)
Example setColumn_conversion_collides :
  NoDup [1; 4294967297] ∧
  result (getColumn 0) (exec (setColumn 32 0 [1; 4294967297]) single_store)
  = Return [1; 1].
Proof.
  split; [|by vm_compute].
  apply NoDup_cons. split; [|apply NoDup_singleton].
  intros Heq%list_elem_of_singleton. discriminate Heq.
Qed.

(** ** Resizing *)

(** X13.  Shrinking discards: after [setNumColumns m] followed by
    [setNumColumns n], every column with an index from [m] up to [n - 1]
    is empty and has dimension zero, whatever it held before the two
    calls.  With [m = 0] this empties the whole matrix. *)
Theorem setNumColumns_shrink_discards (m n c : Index) (s : Vector) :
  m ≤ c → c < n →
  column_of (exec (setNumColumns n) (exec (setNumColumns m) s)) c = Some [] ∧
  dimension_of (exec (setNumColumns n) (exec (setNumColumns m) s)) c = Some 0.
Proof.
  intros Hm Hn. unfold column_of, dimension_of, exec, setNumColumns. simpl.
  split; apply lookup_resize_new; rewrite ?length_resize; lia.
Qed.

Lemma setNumColumns_shrink_discards_witness :
  column_of (exec (setNumColumns 3) (exec (setNumColumns 2) edge_store)) 2
    = Some [] ∧
  dimension_of (exec (setNumColumns 3) (exec (setNumColumns 2) edge_store)) 2
    = Some 0.
Proof.
  apply (setNumColumns_shrink_discards 2 3 2 edge_store); lia.
Defined.

(** X14.  Only [setNumColumns] resizes: after any other call, whether it
    returns or throws, both member vectors have the size they had and
    [getNumColumns] returns what it returned before. *)
Theorem only_setNumColumns_resizes (w : N) (c : call) (s : Vector) :
  (∀ n, c ≠ call_setNumColumns n) →
  length (_data (run w c s)) = length (_data s) ∧
  length (_dimensions (run w c s)) = length (_dimensions s) ∧
  result (getNumColumns w) (run w c s) = result (getNumColumns w) s.
Proof.
  intros Hc.
  assert (length (_data (run w c s)) = length (_data s) ∧
          length (_dimensions (run w c s)) = length (_dimensions s))
    as [Hdata Hdim].
  { destruct c as [n|source target|column input|column|b]; simpl.
    - by destruct (Hc n).
    - destruct (addColumns_sizes source target s) as (-> & -> & _). done.
    - destruct (setColumn_sizes w column input s) as (-> & -> & _). done.
    - destruct (clearColumn_sizes column s) as (-> & -> & _). done.
    - done. }
  split; [done|]. split; [done|].
  unfold result, getNumColumns. simpl. by rewrite Hdata.
Qed.

Lemma only_setNumColumns_resizes_witness :
  length (_data (run 32 (call_setColumn 7 [1; 0]) edge_store))
    = length (_data edge_store) ∧
  length (_dimensions (run 32 (call_setColumn 7 [1; 0]) edge_store))
    = length (_dimensions edge_store) ∧
  result (getNumColumns 32) (run 32 (call_setColumn 7 [1; 0]) edge_store)
    = result (getNumColumns 32) edge_store.
Proof.
  apply (only_setNumColumns_resizes 32 (call_setColumn 7 [1; 0]) edge_store).
  discriminate.
Defined.

(** ** The largest dimension *)

(** X15.  [getDimension()] returns normally and changes nothing; its
    value bounds the dimension tag of every column from above, is the
    tag of some column when there are columns, and is zero when there
    are none. *)
Theorem getDimension_all_bounds (s : Vector) :
  ∃ m, getDimension_all s = (Return m, s) ∧
    (∀ c d, result (getDimension c) s = Return d → d ≤ m) ∧
    (_dimensions s ≠ [] → ∃ c, result (getDimension c) s = Return m) ∧
    (_dimensions s = [] → m = 0).
Proof.
  destruct (getDimension_all_maximum s) as (m & Hrun & Hmax).
  exists m. split; [done|].
  destruct (_dimensions s) as [|x l] eqn:Hdims.
  - subst m. split; [|done].
    intros c d. rewrite result_getDimension. unfold dimension_of.
    by rewrite Hdims, lookup_nil.
  - destruct Hmax as [Hin Hle]. split; [|split; [|done]].
    + intros c d. rewrite result_getDimension. unfold dimension_of.
      rewrite Hdims.
      destruct ((x :: l) !! N.to_nat c) as [d'|] eqn:Hd; [|done].
      intros [= <-]. apply Hle. by eapply list_elem_of_lookup_2.
    + intros _. apply list_elem_of_lookup in Hin as [i Hi].
      exists (N.of_nat i). rewrite result_getDimension. unfold dimension_of.
      by rewrite Hdims, Nat2N.id, Hi.
Qed.

(** * Properties of [Point] *)

Section Point_properties.
Context {T : Type} `{!Coordinate T}.

Lemma equal_loop_true (l1 l2 : list T) :
  coordinate_eq_correct T →
  Point.equal_loop l1 l2 = true ↔ ∃ ext, l2 = l1 ++ ext.
Proof.
  intros Heq. revert l2. induction l1 as [|x t1 IH]; intros l2; simpl.
  - split; [by exists l2|done].
  - destruct l2 as [|y t2].
    + split; [done|]. by intros [ext ?].
    + destruct (coordinate_eq x y) eqn:Hxy.
      * apply Heq in Hxy as ->. rewrite IH. split.
        -- intros [ext ->]. by exists ext.
        -- intros [ext [= ->]]. by exists ext.
      * split; [done|]. intros [ext [= Hyx Ht]]. subst.
        rewrite (proj2 (Heq _ _) eq_refl) in Hxy. done.
Qed.

Lemma equal_true (l1 l2 : list T) :
  coordinate_eq_correct T →
  Point.equal l1 l2 = Some true ↔ ∃ ext, l2 = l1 ++ ext.
Proof.
  intros Heq. rewrite <- (equal_loop_true _ _ Heq). unfold Point.equal.
  case_bool_decide as Hlen.
  - split; [by intros [= ->]|by intros ->].
  - split; [done|]. intros [ext ->]%(equal_loop_true _ _ Heq).
    rewrite length_app in Hlen. lia.
Qed.

Lemma equal_None (l1 l2 : list T) :
  Point.equal l1 l2 = None ↔ (length l2 < length l1)%nat.
Proof.
  unfold Point.equal. case_bool_decide as Hlen.
  - split; [done|lia].
  - split; [lia|done].
Qed.
End Point_properties.

(** X16.  For two points of the same dimension, [operator==] is defined
    and true exactly when the points have the same coordinates, and
    [operator!=] is its negation. *)
Theorem Point_operator_eq_same_dimension {T : Type} `{!Coordinate T}
    (p q : Point.Point T) :
  coordinate_eq_correct T →
  Point.dimension p = Point.dimension q →
  ∃ b, Point.operator_eq p q = Some b ∧
       Point.operator_ne p q = Some (negb b) ∧
       (b = true ↔ p = q).
Proof.
  intros Heq Hdim. destruct p as [l1], q as [l2].
  unfold Point.dimension, Point.operator_ne, Point.operator_eq in *.
  simpl in *.
  assert (length l1 = length l2) as Hlen by lia.
  destruct (Point.equal l1 l2) as [b|] eqn:Hb.
  - exists b. split; [done|]. split; [done|].
    destruct b.
    + apply (equal_true _ _ Heq) in Hb as [ext ->].
      rewrite length_app in Hlen.
      destruct ext; [|simpl in Hlen; lia]. by rewrite app_nil_r.
    + split; [done|]. intros [= ->].
      assert (Point.equal l2 l2 = Some true) as Hrefl.
      { apply (equal_true _ _ Heq). exists []. by rewrite app_nil_r. }
      congruence.
  - apply equal_None in Hb. lia.
Qed.

Lemma int_coordinate_eq_correct : coordinate_eq_correct Z.
Proof. intros x y. apply Z.eqb_eq. Qed.

Lemma Point_operator_eq_same_dimension_witness :
  ∃ b, Point.operator_eq (Point.mkPoint [1; 2]%Z) (Point.mkPoint [1; 3]%Z)
       = Some b ∧
       Point.operator_ne (Point.mkPoint [1; 2]%Z) (Point.mkPoint [1; 3]%Z)
       = Some (negb b) ∧
       (b = true ↔ Point.mkPoint [1; 2]%Z = Point.mkPoint [1; 3]%Z).
Proof.
  apply (Point_operator_eq_same_dimension
           (Point.mkPoint [1; 2]%Z) (Point.mkPoint [1; 3]%Z)).
  - apply int_coordinate_eq_correct.
  - reflexivity.
Defined.

(** X17.  [operator==] does not compare dimensions.  It is true exactly
    when the coordinates of the left point are the leading coordinates
    of the right one, so a point equals every point that extends it; and
    its behaviour is undefined exactly when the right point has fewer
    coordinates than the left one, whatever the coordinates are. *)
Theorem Point_operator_eq_prefix {T : Type} `{!Coordinate T}
    (p q : Point.Point T) :
  coordinate_eq_correct T →
  (Point.operator_eq p q = Some true ↔
     ∃ ext, Point._data q = Point._data p ++ ext) ∧
  (Point.operator_eq p q = None ↔ Point.dimension q < Point.dimension p).
Proof.
  intros Heq. unfold Point.operator_eq, Point.dimension.
  split; [by apply equal_true|]. rewrite equal_None. lia.
Qed.

Lemma Point_operator_eq_prefix_witness :
  (Point.operator_eq (Point.mkPoint [1]%Z) (Point.mkPoint [1; 2]%Z)
     = Some true ↔
     ∃ ext, [1; 2]%Z = [1]%Z ++ ext) ∧
  (Point.operator_eq (Point.mkPoint [1]%Z) (Point.mkPoint [1; 2]%Z) = None ↔
     Point.dimension (Point.mkPoint [1; 2]%Z)
     < Point.dimension (Point.mkPoint [1]%Z)).
Proof.
  apply (Point_operator_eq_prefix
           (Point.mkPoint [1]%Z) (Point.mkPoint [1; 2]%Z)).
  apply int_coordinate_eq_correct.
Defined.

(** A point equals its extension, and the comparison the other way
    round is undefined, also when the first coordinates differ. *)
Example Point_operator_eq_asymmetric :
  Point.operator_eq (Point.mkPoint [1]%Z) (Point.mkPoint [1; 2]%Z) = Some true ∧
  Point.operator_eq (Point.mkPoint [1; 2]%Z) (Point.mkPoint [1]%Z) = None ∧
  Point.operator_eq (Point.mkPoint [2; 2]%Z) (Point.mkPoint [1]%Z) = None.
Proof. done. Qed.

Section Point_order.
Context {T : Type} `{!Coordinate T}.
Hypothesis lt_order : coordinate_lt_strict_total T.

Lemma lexicographical_compare_irrefl (l : list T) :
  Point.lexicographical_compare l l = false.
Proof.
  destruct lt_order as (Hirr & _ & _).
  induction l as [|x l IH]; simpl; [done|]. by rewrite Hirr.
Qed.

Lemma lexicographical_compare_trans (l1 l2 l3 : list T) :
  Point.lexicographical_compare l1 l2 = true →
  Point.lexicographical_compare l2 l3 = true →
  Point.lexicographical_compare l1 l3 = true.
Proof.
  destruct lt_order as (Hirr & Htrans & Htotal).
  revert l2 l3. induction l1 as [|x t1 IH]; intros [|y t2] [|z t3];
    simpl; try done.
  destruct (coordinate_lt x y) eqn:Hxy.
  - intros _. destruct (coordinate_lt y z) eqn:Hyz.
    + intros _. by rewrite (Htrans x y z).
    + destruct (coordinate_lt z y) eqn:Hzy; [done|].
      rewrite <- (Htotal y z Hyz Hzy). by rewrite Hxy.
  - destruct (coordinate_lt y x) eqn:Hyx; [done|].
    rewrite <- (Htotal x y Hxy Hyx).
    destruct (coordinate_lt x z) eqn:Hxz; [done|].
    destruct (coordinate_lt z x) eqn:Hzx; [done|]. apply IH.
Qed.

Lemma lexicographical_compare_total (l1 l2 : list T) :
  Point.lexicographical_compare l1 l2 = false →
  Point.lexicographical_compare l2 l1 = false →
  l1 = l2.
Proof.
  destruct lt_order as (Hirr & Htrans & Htotal).
  revert l2. induction l1 as [|x t1 IH]; intros [|y t2]; simpl; try done.
  destruct (coordinate_lt x y) eqn:Hxy; [done|].
  destruct (coordinate_lt y x) eqn:Hyx; [done|].
  rewrite (Htotal x y Hxy Hyx). intros H1 H2. f_equal. by apply IH.
Qed.

Lemma lexicographical_compare_prefix (l : list T) x ext :
  Point.lexicographical_compare l (l ++ x :: ext) = true.
Proof.
  destruct lt_order as (Hirr & _ & _).
  induction l as [|y l IH]; simpl; [done|]. by rewrite Hirr.
Qed.
End Point_order.

(** X18.  When [<] is a strict total order on the coordinates,
    [operator<] is a strict total order on points of any dimensions: no
    point is below itself, the comparison is transitive and asymmetric,
    and two points neither of which is below the other have the same
    coordinates. *)
Theorem Point_operator_lt_strict_total {T : Type} `{!Coordinate T}
    (p q r : Point.Point T) :
  coordinate_lt_strict_total T →
  Point.operator_lt p p = false ∧
  (Point.operator_lt p q = true → Point.operator_lt q r = true →
   Point.operator_lt p r = true) ∧
  (Point.operator_lt p q = true → Point.operator_lt q p = false) ∧
  (Point.operator_lt p q = false → Point.operator_lt q p = false → p = q).
Proof.
  intros Hord. unfold Point.operator_lt. destruct p as [l1], q as [l2].
  simpl. split; [by apply lexicographical_compare_irrefl|].
  split; [by apply lexicographical_compare_trans|]. split.
  - intros H12.
    destruct (Point.lexicographical_compare l2 l1) eqn:H21; [|done].
    pose proof (lexicographical_compare_trans Hord _ _ _ H12 H21) as Hcyc.
    by rewrite lexicographical_compare_irrefl in Hcyc.
  - intros H12 H21. f_equal. by apply lexicographical_compare_total.
Qed.

Lemma int_coordinate_lt_strict_total : coordinate_lt_strict_total Z.
Proof.
  split; [|split]; simpl.
  - apply Z.ltb_irrefl.
  - intros x y z Hxy%Z.ltb_lt Hyz%Z.ltb_lt. apply Z.ltb_lt. lia.
  - intros x y Hxy%Z.ltb_ge Hyx%Z.ltb_ge. lia.
Qed.

Lemma Point_operator_lt_strict_total_witness :
  Point.operator_lt (Point.mkPoint [1; 2]%Z) (Point.mkPoint [1; 2]%Z) = false ∧
  (Point.operator_lt (Point.mkPoint [1; 2]%Z) (Point.mkPoint [1; 3]%Z) = true →
   Point.operator_lt (Point.mkPoint [1; 3]%Z) (Point.mkPoint [2]%Z) = true →
   Point.operator_lt (Point.mkPoint [1; 2]%Z) (Point.mkPoint [2]%Z) = true) ∧
  (Point.operator_lt (Point.mkPoint [1; 2]%Z) (Point.mkPoint [1; 3]%Z) = true →
   Point.operator_lt (Point.mkPoint [1; 3]%Z) (Point.mkPoint [1; 2]%Z)
   = false) ∧
  (Point.operator_lt (Point.mkPoint [1; 2]%Z) (Point.mkPoint [1; 3]%Z) = false →
   Point.operator_lt (Point.mkPoint [1; 3]%Z) (Point.mkPoint [1; 2]%Z) = false →
   Point.mkPoint [1; 2]%Z = Point.mkPoint [1; 3]%Z).
Proof.
  apply (Point_operator_lt_strict_total (Point.mkPoint [1; 2]%Z)
           (Point.mkPoint [1; 3]%Z) (Point.mkPoint [2]%Z)).
  apply int_coordinate_lt_strict_total.
Defined.



(** ** The output operator *)

Lemma string_app_assoc (s1 s2 s3 : string) :
  (s1 +:+ s2) +:+ s3 = s1 +:+ (s2 +:+ s3).
Proof.
  induction s1 as [|a s1 IH]; [done|].
  change (String a ((s1 +:+ s2) +:+ s3) = String a (s1 +:+ (s2 +:+ s3))).
  by f_equal.
Qed.

Lemma string_app_nil_r (s : string) : s +:+ "" = s.
Proof.
  induction s as [|a s IH]; [done|].
  change (String a (s +:+ "") = String a s). by f_equal.
Qed.

Lemma write_from_false {T O : Type} `{!Coordinate T} `{!Ostream T O}
    (text : O → string) (plain : O → Prop) (x : T) (l : list T) (o : O) :
  appends text plain → plain o →
  plain (Point.write_from false (x :: l) o) ∧
  text (Point.write_from false (x :: l) o)
  = text o +:+ " " +:+ String.concat " " (coordinate_write <$> x :: l).
Proof.
  intros [Hstring Hcoordinate]. revert x o.
  induction l as [|y l IH]; intros x o Ho;
    destruct (Hstring " " o Ho) as [Ho1 Ht1];
    destruct (Hcoordinate x _ Ho1) as [Ho2 Ht2].
  - simpl Point.write_from. split; [done|].
    rewrite Ht2, Ht1. simpl. by rewrite string_app_assoc.
  - change (Point.write_from false (x :: y :: l) o)
      with (Point.write_from false (y :: l)
              (shl_coordinate x (shl_string " " o))).
    destruct (IH y _ Ho2) as [Ho3 Ht3]. split; [done|].
    rewrite Ht3, Ht2, Ht1.
    change (String.concat " " (coordinate_write <$> x :: y :: l))
      with (coordinate_write x +:+ " " +:+
            String.concat " " (coordinate_write <$> y :: l)).
    by rewrite !string_app_assoc.
Qed.


(** A [text_ostream] appends plainly while its field width is zero. *)
Lemma text_ostream_appends {T : Type} `{!Coordinate T} :
  appends (T := T) written (λ o, width o = 0).
Proof.
  split; intros x o Ho; (split; [done|]);
    unfold shl_string, shl_coordinate, text_Ostream, formatted;
    simpl; by rewrite Ho.
Qed.


Example Point_operator_shl_example :
  written (Point.operator_shl (mk_text_ostream "p = " 0)
             (Point.mkPoint [3; -1; 20]%Z))
  = "p = 3 -1 20".
Proof. reflexivity. Qed.

(** A field width set before the call is spent on the first coordinate
    alone. *)
Example Point_operator_shl_setw :
  written (Point.operator_shl (setw 5 (mk_text_ostream "p = " 0))
             (Point.mkPoint [3; -1; 20]%Z))
  = "p =     3 -1 20".
Proof. reflexivity. Qed.

(** * Properties of [PointCloud] *)

Lemma size_t_mul_small (a b : N) :
  a * b < 2 ^ 64 → PointCloud.size_t_mul a b = a * b.
Proof. intros Hab. unfold PointCloud.size_t_mul. by apply N.mod_small. Qed.

Lemma row_within (n d i : N) : i < n → i * d + d ≤ n * d.
Proof.
  intros Hi. replace (i * d + d) with ((i + 1) * d) by lia.
  apply N.mul_le_mono_r. lia.
Qed.

(** X21.  On a point cloud whose array holds [size() * dimension()]
    elements, with that product a [std::size_t] value, [get] never reads
    outside the array: for [i >= size()] it throws
    [std::runtime_error("Invalid index")], and for [i < size()] it
    delivers exactly [dimension()] coordinates, the elements
    [i * dimension() + j] of the array for [j < dimension()]. *)
Theorem PointCloud_get_allocated {T : Type}
    (pc : PointCloud.PointCloud (T := T)) (i : N) :
  PointCloud.allocated pc →
  PointCloud._n pc * PointCloud._d pc < 2 ^ 64 →
  (PointCloud.size pc ≤ i →
   PointCloud.get i pc = PointCloud.runtime_error "Invalid index") ∧
  (i < PointCloud.size pc →
   ∃ coords, PointCloud.get i pc = PointCloud.Return coords ∧
     N.of_nat (length coords) = PointCloud.dimension pc ∧
     ∀ j, j < PointCloud.dimension pc →
       coords !! N.to_nat j
       = PointCloud._points pc !! N.to_nat (i * PointCloud.dimension pc + j)).
Proof.
  destruct pc as [n d points].
  unfold PointCloud.allocated, PointCloud.get, PointCloud.size,
    PointCloud.dimension. simpl.
  intros Halloc Hfits. split.
  - intros Hi. by rewrite bool_decide_eq_true_2.
  - intros Hi. rewrite bool_decide_eq_false_2 by lia.
    pose proof (row_within n d i Hi) as Hrow.
    rewrite size_t_mul_small by lia.
    rewrite bool_decide_eq_true_2 by lia.
    eexists. split; [done|]. split.
    + rewrite length_take, length_drop. lia.
    + intros j Hj. rewrite lookup_take_lt by lia.
      rewrite lookup_drop. f_equal. lia.
Qed.

Lemma PointCloud_get_allocated_witness :
  (PointCloud.size (PointCloud.mkPointCloud 2 2 [1; 2; 3; 4]%Z) ≤ 1 →
   PointCloud.get 1 (PointCloud.mkPointCloud 2 2 [1; 2; 3; 4]%Z)
   = PointCloud.runtime_error "Invalid index") ∧
  (1 < PointCloud.size (PointCloud.mkPointCloud 2 2 [1; 2; 3; 4]%Z) →
   ∃ coords,
     PointCloud.get 1 (PointCloud.mkPointCloud 2 2 [1; 2; 3; 4]%Z)
     = PointCloud.Return coords ∧
     N.of_nat (length coords)
     = PointCloud.dimension (PointCloud.mkPointCloud 2 2 [1; 2; 3; 4]%Z) ∧
     ∀ j, j < PointCloud.dimension
                (PointCloud.mkPointCloud 2 2 [1; 2; 3; 4]%Z) →
       coords !! N.to_nat j
       = [1; 2; 3; 4]%Z
         !! N.to_nat (1 * PointCloud.dimension
                            (PointCloud.mkPointCloud 2 2 [1; 2; 3; 4]%Z)
                      + j)).
Proof.
  apply (PointCloud_get_allocated
           (PointCloud.mkPointCloud 2 2 [1; 2; 3; 4]%Z) 1).
  - reflexivity.
  - by vm_compute.
Defined.

(** X22.  A point cloud constructed with [n] points of dimension [d],
    where [n * d] is a [std::size_t] value, reads as zeros: [get] gives
    [d] copies of [T()] for every [i < n] and throws
    [std::runtime_error("Invalid index")] for every other [i]. *)
Theorem PointCloud_get_fresh {T : Type} (T_zero : T) (n d i : N) :
  n * d < 2 ^ 64 →
  PointCloud.get i (PointCloud.PointCloud_of_size T_zero n d)
  = if bool_decide (i < n)
    then PointCloud.Return (replicate (N.to_nat d) T_zero)
    else PointCloud.runtime_error "Invalid index".
Proof.
  intros Hfits.
  unfold PointCloud.get, PointCloud.PointCloud_of_size, PointCloud.size,
    PointCloud.dimension. simpl.
  destruct (decide (i < n)) as [Hi|Hi].
  - rewrite (bool_decide_eq_true_2 (i < n)) by done.
    rewrite bool_decide_eq_false_2 by lia.
    pose proof (row_within n d i Hi) as Hrow.
    rewrite !size_t_mul_small by lia.
    rewrite length_replicate, bool_decide_eq_true_2 by lia.
    rewrite drop_replicate, take_replicate. do 2 f_equal. lia.
  - rewrite (bool_decide_eq_false_2 (i < n)) by done.
    by rewrite bool_decide_eq_true_2 by lia.
Qed.

Lemma PointCloud_get_fresh_witness :
  PointCloud.get 1 (PointCloud.PointCloud_of_size 0%Z 2 3)
  = if bool_decide (1 < 2)
    then PointCloud.Return (replicate (N.to_nat 3) 0%Z)
    else PointCloud.runtime_error "Invalid index".
Proof.
  apply (PointCloud_get_fresh 0%Z 2 3 1). by vm_compute.
Defined.

(** * Properties of [makeRandomStratifiedGraph] *)

Lemma VertexType_of_fits (a : N) :
  a < 2 ^ 16 → StratifiedGraph.VertexType_of (Z.of_N a) = a.
Proof. intros Ha. by apply static_cast_fits. Qed.

Lemma unsigned_of_fits (a : N) :
  a < 2 ^ 16 → StratifiedGraph.unsigned_of (Z.of_N a) = a.
Proof.
  intros Ha. apply static_cast_fits. unfold is_Index.
  assert (2 ^ 16 < 2 ^ 32) by (by vm_compute). lia.
Qed.

Lemma unsigned_of_fits_succ (a : N) :
  a < 2 ^ 16 → StratifiedGraph.unsigned_of (Z.of_N a + 1) = a + 1.
Proof.
  intros Ha. replace (Z.of_N a + 1)%Z with (Z.of_N (a + 1)) by lia.
  apply static_cast_fits. unfold is_Index.
  assert (2 ^ 16 < 2 ^ 32) by (by vm_compute). lia.
Qed.

Lemma counters_from_S first count :
  StratifiedGraph.counters_from first (S count)
  = first :: StratifiedGraph.counters_from (first + 1) count.
Proof.
  unfold StratifiedGraph.counters_from. simpl. rewrite N2Nat.id.
  by replace (N.to_nat (first + 1)) with (S (N.to_nat first)) by lia.
Qed.

Lemma elem_of_counters_from first count x :
  x ∈ StratifiedGraph.counters_from first count
  ↔ first ≤ x < first + N.of_nat count.
Proof.
  unfold StratifiedGraph.counters_from. rewrite list_elem_of_fmap. split.
  - intros (i & -> & Hi). apply elem_of_seq in Hi. lia.
  - intros Hx. exists (N.to_nat x). split; [by rewrite N2Nat.id|].
    apply elem_of_seq. lia.
Qed.

Lemma elem_of_counters bound x : x ∈ StratifiedGraph.counters bound ↔ x < bound.
Proof. unfold StratifiedGraph.counters. rewrite elem_of_counters_from. lia. Qed.

Lemma length_counters bound :
  length (StratifiedGraph.counters bound) = N.to_nat bound.
Proof.
  unfold StratifiedGraph.counters, StratifiedGraph.counters_from.
  by rewrite length_fmap, length_seq.
Qed.

Lemma NoDup_counters bound : NoDup (StratifiedGraph.counters bound).
Proof.
  unfold StratifiedGraph.counters, StratifiedGraph.counters_from.
  apply NoDup_fmap_2; [apply _|apply NoDup_seq].
Qed.

Lemma elem_of_bipartite first s_i s_next u v :
  (u, v) ∈ StratifiedGraph.bipartite first s_i s_next
  ↔ (first ≤ u < first + s_i) ∧
    (first + s_i ≤ v < first + s_i + s_next).
Proof.
  unfold StratifiedGraph.bipartite. rewrite list_elem_of_bind. split.
  - intros (j & Huv & Hj%elem_of_counters).
    apply list_elem_of_fmap in Huv as (k & [= -> ->] & Hk%elem_of_counters).
    lia.
  - intros [Hu Hv]. exists (u - first). split.
    + apply list_elem_of_fmap. exists (v - (first + s_i)). split.
      * f_equal; lia.
      * apply elem_of_counters. lia.
    + apply elem_of_counters. lia.
Qed.

Lemma length_bipartite first s_i s_next :
  N.of_nat (length (StratifiedGraph.bipartite first s_i s_next))
  = s_i * s_next.
Proof.
  unfold StratifiedGraph.bipartite.
  pose proof (length_counters s_i) as Hlen.
  revert Hlen. generalize (StratifiedGraph.counters s_i). intros js.
  revert s_i. induction js as [|j js IH]; intros s_i Hlen.
  - simpl in *. lia.
  - cbn [mbind list_bind]. rewrite length_app, length_fmap, length_counters.
    simpl in Hlen.
    specialize (IH (s_i - 1)). rewrite Nat2N.inj_add.
    assert (N.of_nat (length (js ≫= λ j0 : N,
              (λ k : N, (first + j0, first + s_i + k))
                <$> StratifiedGraph.counters s_next))
            = (s_i - 1) * s_next) as ->; [|lia].
    rewrite <- IH by lia. f_equal.
    clear. induction js as [|j js IH]; [done|].
    cbn [mbind list_bind]. by rewrite !length_app, !length_fmap, IH.
Qed.

Lemma NoDup_bipartite first s_i s_next :
  NoDup (StratifiedGraph.bipartite first s_i s_next).
Proof.
  unfold StratifiedGraph.bipartite. apply NoDup_bind.
  - intros j1 j2 [u v] _ _
      (k1 & [= -> ->] & _)%list_elem_of_fmap
      (k2 & [= Hu Hv] & _)%list_elem_of_fmap.
    lia.
  - intros j _. apply NoDup_fmap_2; [|apply NoDup_counters].
    intros k1 k2 [= Hk]. lia.
  - apply NoDup_counters.
Qed.

Lemma elem_of_consecutive strata first u v :
  (u, v) ∈ StratifiedGraph.consecutive strata first
  ↔ ∃ i s_i s_next,
      strata !! i = Some s_i ∧ strata !! S i = Some s_next ∧
      (first + StratifiedGraph.total (take i strata) ≤ u
       < first + StratifiedGraph.total (take i strata) + s_i) ∧
      (first + StratifiedGraph.total (take i strata) + s_i ≤ v
       < first + StratifiedGraph.total (take i strata) + s_i + s_next).
Proof.
  revert first. induction strata as [|s_i rest IH]; intros first.
  { simpl. split; [by intros ?%elem_of_nil|]. by intros (i & ? & ? & ? & _). }
  destruct rest as [|s_next rest].
  { simpl. split; [by intros ?%elem_of_nil|].
    intros (i & a & b & _ & Hb & _). by destruct i. }
  change (StratifiedGraph.consecutive (s_i :: s_next :: rest) first)
    with (StratifiedGraph.bipartite first s_i s_next
          ++ StratifiedGraph.consecutive (s_next :: rest) (first + s_i)).
  rewrite elem_of_app, elem_of_bipartite, IH. split.
  - intros [[Hu Hv]|(i & a & b & Ha & Hb & Hu & Hv)].
    + exists 0%nat, s_i, s_next. simpl. repeat split; try done; lia.
    + exists (S i), a, b. split; [done|]. split; [done|].
      change (take (S i) (s_i :: s_next :: rest))
        with (s_i :: take i (s_next :: rest)).
      change (StratifiedGraph.total (s_i :: take i (s_next :: rest)))
        with (s_i + StratifiedGraph.total (take i (s_next :: rest))).
      lia.
  - intros (i & a & b & Ha & Hb & Hu & Hv). destruct i as [|i].
    + left. simpl in *. simplify_eq. lia.
    + right. exists i, a, b. split; [done|]. split; [done|].
      change (take (S i) (s_i :: s_next :: rest))
        with (s_i :: take i (s_next :: rest)) in *.
      change (StratifiedGraph.total (s_i :: take i (s_next :: rest)))
        with (s_i + StratifiedGraph.total (take i (s_next :: rest))) in *.
      lia.
Qed.

Lemma length_consecutive strata first :
  N.of_nat (length (StratifiedGraph.consecutive strata first))
  = StratifiedGraph.adjacent_products strata.
Proof.
  revert first. induction strata as [|s_i rest IH]; intros first; [done|].
  destruct rest as [|s_next rest]; [done|].
  change (StratifiedGraph.consecutive (s_i :: s_next :: rest) first)
    with (StratifiedGraph.bipartite first s_i s_next
          ++ StratifiedGraph.consecutive (s_next :: rest) (first + s_i)).
  change (StratifiedGraph.adjacent_products (s_i :: s_next :: rest))
    with (s_i * s_next + StratifiedGraph.adjacent_products (s_next :: rest)).
  by rewrite length_app, Nat2N.inj_add, length_bipartite, IH.
Qed.

Lemma NoDup_consecutive strata first :
  NoDup (StratifiedGraph.consecutive strata first).
Proof.
  revert first. induction strata as [|s_i rest IH]; intros first.
  { constructor. }
  destruct rest as [|s_next rest]; [constructor|].
  change (StratifiedGraph.consecutive (s_i :: s_next :: rest) first)
    with (StratifiedGraph.bipartite first s_i s_next
          ++ StratifiedGraph.consecutive (s_next :: rest) (first + s_i)).
  apply NoDup_app. split; [apply NoDup_bipartite|]. split; [|apply IH].
  intros [u v] [Hu _]%elem_of_bipartite
    (i & a & b & _ & _ & Hu' & _)%elem_of_consecutive.
  lia.
Qed.

Section StratifiedGraph_properties.
Context {DataType Simplex SimplicialComplex Engine : Type}.
Variable Simplex_of_vertex : N → Simplex.
Variable Simplex_of_vertices : list N → DataType → Simplex.
Variable SimplicialComplex_of_range : list Simplex → SimplicialComplex.
Variable draw : Engine → DataType * Engine.

Local Abbreviation emit :=
  (StratifiedGraph.emit DataType Simplex Engine Simplex_of_vertices draw).
Local Abbreviation push_edge :=
  (StratifiedGraph.push_edge DataType Simplex Engine Simplex_of_vertices draw).
Local Abbreviation push_edges :=
  (StratifiedGraph.push_edges DataType Simplex Engine Simplex_of_vertices draw).
Local Abbreviation push_vertices :=
  (StratifiedGraph.push_vertices Simplex Simplex_of_vertex).
Local Abbreviation draws := (StratifiedGraph.draws DataType Engine draw).
Local Abbreviation edge_simplices :=
  (StratifiedGraph.edge_simplices DataType Simplex Simplex_of_vertices).

Lemma emit_nil st : emit [] st = st.
Proof.
  destruct st as [engine simplices]. unfold StratifiedGraph.emit. simpl.
  by rewrite app_nil_r.
Qed.

Lemma emit_cons u v pairs engine simplices :
  emit ((u, v) :: pairs) (engine, simplices)
  = emit pairs ((draw engine).2,
                simplices ++ [Simplex_of_vertices [u; v] (draw engine).1]).
Proof.
  unfold StratifiedGraph.emit. simpl. destruct (draw engine) as [w engine1].
  simpl. destruct (draws (length pairs) engine1) as [ws engine2].
  unfold StratifiedGraph.edge_simplices. simpl. by rewrite <- app_assoc.
Qed.

Lemma emit_app pairs1 pairs2 st :
  emit (pairs1 ++ pairs2) st = emit pairs2 (emit pairs1 st).
Proof.
  revert st. induction pairs1 as [|[u v] pairs1 IH]; intros [engine simplices].
  - by rewrite emit_nil.
  - rewrite <- app_comm_cons. by rewrite !emit_cons, IH.
Qed.

Lemma push_edge_fits offset s_i j k engine simplices :
  s_i ≤ offset → offset - s_i + j < 2 ^ 16 → offset + k < 2 ^ 16 →
  push_edge offset s_i j k (engine, simplices)
  = ((draw engine).2,
     simplices
     ++ [Simplex_of_vertices [offset - s_i + j; offset + k] (draw engine).1]).
Proof.
  intros Hs Hu Hv. unfold StratifiedGraph.push_edge.
  destruct (draw engine) as [w engine1]. simpl.
  rewrite <- N2Z.inj_sub, unsigned_of_fits by lia.
  rewrite <- !N2Z.inj_add, !unsigned_of_fits by lia.
  by rewrite !VertexType_of_fits by lia.
Qed.

(** The innermost loop, started with the counter at [k0]. *)
Lemma for_loop_push_edge count k0 offset s_i j st :
  s_i ≤ offset → offset - s_i + j < 2 ^ 16 →
  offset + k0 + N.of_nat count ≤ 2 ^ 16 →
  StratifiedGraph.for_loop count k0 (push_edge offset s_i j) st
  = emit ((λ k, (offset - s_i + j, offset + k))
            <$> StratifiedGraph.counters_from k0 count) st.
Proof.
  intros Hs Hu. revert k0 st.
  induction count as [|count IH]; intros k0 [engine simplices] Hv.
  { by rewrite emit_nil. }
  rewrite counters_from_S, fmap_cons, emit_cons.
  cbn [StratifiedGraph.for_loop].
  rewrite unsigned_of_fits_succ, push_edge_fits by lia.
  by rewrite IH by lia.
Qed.

(** The middle loop, started with the counter at [j0]. *)
Lemma for_loop_for_unsigned count j0 offset s_i s_next st :
  s_i ≤ offset → offset - s_i + j0 + N.of_nat count ≤ 2 ^ 16 →
  offset + s_next ≤ 2 ^ 16 →
  StratifiedGraph.for_loop count j0
    (λ j st, StratifiedGraph.for_unsigned s_next (push_edge offset s_i j) st)
    st
  = emit (j ← StratifiedGraph.counters_from j0 count;
          (λ k, (offset - s_i + j, offset + k))
            <$> StratifiedGraph.counters s_next) st.
Proof.
  intros Hs Hu Hv. revert j0 st Hu.
  induction count as [|count IH]; intros j0 st Hu.
  { by rewrite emit_nil. }
  rewrite counters_from_S. cbn [StratifiedGraph.for_loop mbind list_bind].
  rewrite emit_app.
  rewrite unsigned_of_fits_succ by lia. rewrite IH by lia. f_equal.
  unfold StratifiedGraph.for_unsigned, StratifiedGraph.counters.
  apply for_loop_push_edge; lia.
Qed.

Lemma total_cons s_i strata :
  StratifiedGraph.total (s_i :: strata) = s_i + StratifiedGraph.total strata.
Proof. reflexivity. Qed.

Lemma push_edges_cons s_i s_next rest offset st :
  push_edges (s_i :: s_next :: rest) offset st
  = push_edges (s_next :: rest)
      (StratifiedGraph.VertexType_of
         (Z.of_N (StratifiedGraph.unsigned_of (Z.of_N offset + Z.of_N s_i))))
      (StratifiedGraph.for_unsigned s_i
         (λ j st,
            StratifiedGraph.for_unsigned s_next
              (push_edge
                 (StratifiedGraph.VertexType_of
                    (Z.of_N (StratifiedGraph.unsigned_of
                               (Z.of_N offset + Z.of_N s_i))))
                 s_i j)
              st)
         st).
Proof. reflexivity. Qed.

Lemma consecutive_cons s_i s_next rest first :
  StratifiedGraph.consecutive (s_i :: s_next :: rest) first
  = StratifiedGraph.bipartite first s_i s_next
    ++ StratifiedGraph.consecutive (s_next :: rest) (first + s_i).
Proof. reflexivity. Qed.

(** The second loop nest appends the edges between consecutive
    strata. *)
Lemma push_edges_consecutive strata first st :
  first + StratifiedGraph.total strata < 2 ^ 16 →
  push_edges strata first st
  = emit (StratifiedGraph.consecutive strata first) st.
Proof.
  revert first st. induction strata as [|s_i rest IH]; intros first st Hfits.
  { by rewrite emit_nil. }
  destruct rest as [|s_next rest]; [by rewrite emit_nil|].
  rewrite !total_cons in Hfits.
  rewrite push_edges_cons, consecutive_cons, emit_app.
  rewrite <- N2Z.inj_add, unsigned_of_fits, VertexType_of_fits by lia.
  rewrite IH by (rewrite total_cons; lia). f_equal.
  etrans.
  { apply (for_loop_for_unsigned (N.to_nat s_i) 0 (first + s_i) s_i s_next);
      lia. }
  unfold StratifiedGraph.bipartite, StratifiedGraph.counters.
  by replace (first + s_i - s_i) with first by lia.
Qed.

(** The first loop nest, for one stratum. *)
Lemma for_loop_push_vertex count j0 index simplices :
  index + N.of_nat count < 2 ^ 16 → j0 + N.of_nat count < 2 ^ 16 →
  StratifiedGraph.for_loop count j0
    (λ _ '(index, simplices),
       (StratifiedGraph.VertexType_of (Z.of_N index + 1),
        simplices ++ [Simplex_of_vertex index]))
    (index, simplices)
  = (index + N.of_nat count,
     simplices
     ++ (Simplex_of_vertex <$> StratifiedGraph.counters_from index count)).
Proof.
  revert j0 index simplices.
  induction count as [|count IH]; intros j0 index simplices Hi Hj.
  { simpl. rewrite app_nil_r. f_equal. lia. }
  rewrite counters_from_S. cbn [StratifiedGraph.for_loop].
  rewrite unsigned_of_fits_succ by lia.
  replace (Z.of_N index + 1)%Z with (Z.of_N (index + 1)) by lia.
  rewrite VertexType_of_fits by lia. rewrite IH by lia.
  rewrite fmap_cons, <- app_assoc. f_equal. lia.
Qed.

Lemma counters_from_app first count1 count2 :
  StratifiedGraph.counters_from first (count1 + count2)
  = StratifiedGraph.counters_from first count1
    ++ StratifiedGraph.counters_from (first + N.of_nat count1) count2.
Proof.
  unfold StratifiedGraph.counters_from.
  rewrite seq_app, fmap_app. do 3 f_equal. lia.
Qed.

(** The first loop nest numbers the vertices consecutively. *)
Lemma push_vertices_counters strata index simplices :
  index + StratifiedGraph.total strata < 2 ^ 16 →
  push_vertices strata (index, simplices)
  = (index + StratifiedGraph.total strata,
     simplices
     ++ (Simplex_of_vertex
           <$> StratifiedGraph.counters_from index
                 (N.to_nat (StratifiedGraph.total strata)))).
Proof.
  revert index simplices.
  induction strata as [|s_i strata IH]; intros index simplices Hfits.
  { simpl. rewrite app_nil_r. f_equal. lia. }
  rewrite total_cons in *.
  unfold StratifiedGraph.push_vertices in *. cbn [foldl].
  unfold StratifiedGraph.for_unsigned at 2.
  rewrite for_loop_push_vertex by lia.
  rewrite IH by lia. rewrite N2Nat.inj_add, counters_from_app.
  rewrite fmap_app, <- app_assoc, !N2Nat.id. f_equal. lia.
Qed.

(** X23.  For at least two strata with fewer than [2^16] vertices in
    total, the generator returns normally.  The simplices it hands to
    the complex are, in this order, the vertices [0, 1, ..., total - 1]
    and then one edge per pair in [edges]; the weights of the edges are
    the successive draws from the generator, one per edge.  The pairs in
    [edges] are exactly the pairs of a vertex of some stratum with a
    vertex of the stratum that follows it, each once: consecutive strata
    are completely connected, and no edge joins two vertices of one
    stratum or of strata that are not consecutive. *)
Theorem makeRandomStratifiedGraph_structure (strata : list N)
    (engine : Engine) :
  (2 ≤ length strata)%nat →
  StratifiedGraph.total strata < 2 ^ 16 →
  ∃ edges weights engine',
    StratifiedGraph.makeRandomStratifiedGraph DataType Simplex
      SimplicialComplex Engine Simplex_of_vertex Simplex_of_vertices
      SimplicialComplex_of_range draw strata engine
    = (StratifiedGraph.Return
         (SimplicialComplex_of_range
            ((Simplex_of_vertex
                <$> StratifiedGraph.counters (StratifiedGraph.total strata))
             ++ edge_simplices edges weights)),
       engine') ∧
    draws (length edges) engine = (weights, engine') ∧
    N.of_nat (length edges) = StratifiedGraph.adjacent_products strata ∧
    NoDup edges ∧
    ∀ u v, (u, v) ∈ edges ↔
      ∃ i s_i s_next,
        strata !! i = Some s_i ∧ strata !! S i = Some s_next ∧
        (StratifiedGraph.total (take i strata) ≤ u
         < StratifiedGraph.total (take i strata) + s_i) ∧
        (StratifiedGraph.total (take i strata) + s_i ≤ v
         < StratifiedGraph.total (take i strata) + s_i + s_next).
Proof.
  intros Hlen Hfits.
  exists (StratifiedGraph.consecutive strata 0).
  destruct (draws (length (StratifiedGraph.consecutive strata 0)) engine)
    as [weights engine'] eqn:Hdraws.
  exists weights, engine'. split; [|split; [done|]].
  - unfold StratifiedGraph.makeRandomStratifiedGraph.
    rewrite bool_decide_eq_false_2 by lia.
    rewrite push_vertices_counters by lia.
    rewrite push_edges_consecutive by lia.
    unfold StratifiedGraph.emit. rewrite Hdraws.
    by rewrite app_nil_l.
  - split; [apply length_consecutive|]. split; [apply NoDup_consecutive|].
    intros u v. rewrite elem_of_consecutive.
    by setoid_rewrite N.add_0_l.
Qed.
End StratifiedGraph_properties.

Lemma makeRandomStratifiedGraph_structure_witness :
  ∃ edges weights engine',
    StratifiedGraph.makeRandomStratifiedGraph nat (list N * option nat)
      (list (list N * option nat)) nat
      (λ v, ([v], None)) (λ vs weight, (vs, Some weight)) id
      (λ engine, (engine, S engine)) [2; 1; 2] 10%nat
    = (StratifiedGraph.Return
         (id (((λ v, ([v], None))
                 <$> StratifiedGraph.counters
                       (StratifiedGraph.total [2; 1; 2]))
              ++ StratifiedGraph.edge_simplices nat (list N * option nat)
                   (λ vs weight, (vs, Some weight)) edges weights)),
       engine') ∧
    StratifiedGraph.draws nat nat (λ engine, (engine, S engine))
      (length edges) 10%nat = (weights, engine') ∧
    N.of_nat (length edges) = StratifiedGraph.adjacent_products [2; 1; 2] ∧
    NoDup edges ∧
    ∀ u v, (u, v) ∈ edges ↔
      ∃ i s_i s_next,
        [2; 1; 2] !! i = Some s_i ∧ [2; 1; 2] !! S i = Some s_next ∧
        (StratifiedGraph.total (take i [2; 1; 2]) ≤ u
         < StratifiedGraph.total (take i [2; 1; 2]) + s_i) ∧
        (StratifiedGraph.total (take i [2; 1; 2]) + s_i ≤ v
         < StratifiedGraph.total (take i [2; 1; 2]) + s_i + s_next).
Proof.
  apply (makeRandomStratifiedGraph_structure
           (λ v, ([v], None)) (λ vs weight, (vs, Some weight)) id
           (λ engine, (engine, S engine)) [2; 1; 2] 10%nat).
  - simpl. lia.
  - by vm_compute.
Defined.
